(** * clifford_circuit.py: random single-timestep circuits on a qubit chain

    A shallow embedding of [random_params], [build_circuit] and [main] of
    [clifford_circuit.py], and the properties of the circuit construction
    procedure.

    Python floats are the kernel's binary64 floats, Python lists are lists,
    a raised exception is the [Raise] case of [Result].  [build_circuit] is
    embedded twice: as a function of the values of its arguments, and, in
    [ByRef], on a store where the arguments are list objects handed over by
    reference; the two are proved to agree.  [random_params] and [main] run
    in a world that holds the random source and records what was drawn,
    printed and handed to the simulator.

    The part of cirq the program uses is kept in [Module cirq]: a circuit is
    a list of moments, [append] places each operation in the earliest moment
    after the last one that touches its qubits, and a gate applied to one
    qubit twice is a [ValueError].  What the simulator computes is the
    library's and is not part of the embedding. *)

From Stdlib Require Import ZArith List Bool Lia Floats String.
From stdpp Require Import base option list sorting gmap.

Local Open Scope Z_scope.

(* ================================================================== *)
(** * Python values, exceptions and sequences *)

Inductive Exn : Set :=
  | IndexError   (* a list index out of range *)
  | ValueError   (* a gate applied to one qubit twice *)
  | TypeError.   (* an object of the wrong kind *)

Inductive Result (A : Type) : Type :=
  | Ok (a : A)
  | Raise (e : Exn).
Arguments Ok {A} a.
Arguments Raise {A} e.

#[global] Instance Result_ret : MRet Result := @Ok.
#[global] Instance Result_bind : MBind Result :=
  λ A B f m, match m with Ok a => f a | Raise e => Raise e end.

(** [l[i]] for an index [i >= 0]. *)
Definition getitem {A} (l : list A) (i : nat) : Result A :=
  match l !! i with
  | Some x => Ok x
  | None => Raise IndexError
  end.

(** [range(n)]: empty when [n <= 0]. *)
Definition range (n : Z) : list Z := Z.of_nat <$> seq 0 (Z.to_nat n).

(** [enumerate(l)]. *)
Definition enumerate {A} (l : list A) : list (nat * A) :=
  zip (seq 0 (length l)) l.

(** [p >= 0.5] on floats (false on a NaN, as in Python). *)
Definition ge_half (p : float) : bool := (0.5 <=? p)%float.

(** [0 <= p < 1], the range of [random.random()]. *)
Definition in_unit (p : float) : bool := ((0 <=? p) && (p <? 1))%float.

(* ================================================================== *)
(** * The part of cirq the program uses *)

Module cirq.

Inductive Qubit : Set := LineQubit (x : Z).

#[global] Instance Qubit_eq_dec : EqDecision Qubit.
Proof. solve_decision. Defined.

(** [q.x], the line position of a qubit. *)
Definition x_of (q : Qubit) : Z := let 'LineQubit x := q in x.

Inductive Operation : Set :=
  | reset (q : Qubit)
  | CNOT (control target : Qubit)
  | H (q : Qubit)
  | S (q : Qubit)
  | T (q : Qubit)
  | measure (q : Qubit).

#[global] Instance Operation_eq_dec : EqDecision Operation.
Proof. solve_decision. Defined.

(** [op.qubits]. *)
Definition qubits (op : Operation) : list Qubit :=
  match op with
  | reset q | H q | S q | T q | measure q => [q]
  | CNOT control target => [control; target]
  end.

(** The call [cirq.CNOT(control, target)]: a gate takes distinct qubits,
    and raises [ValueError] otherwise.  The one-qubit gates cannot fail. *)
Definition CNOT_call (control target : Qubit) : Result Operation :=
  if decide (control = target) then Raise ValueError
  else Ok (CNOT control target).

(** A moment holds operations on pairwise different qubits, in the order
    they were added; a circuit is a list of moments. *)
Abbreviation Moment := (list Operation).
Abbreviation Circuit := (list Moment).

(** [cirq.Circuit()]. *)
Definition Circuit_new : Circuit := [].

(** [q in qs]. *)
Definition qubit_in (q : Qubit) (qs : list Qubit) : bool :=
  existsb (λ q', bool_decide (q = q')) qs.

(** [moment.operates_on(qs)]: some operation of the moment is on a qubit
    of [qs]. *)
Definition operates_on (moment : Moment) (qs : list Qubit) : bool :=
  existsb (λ op, existsb (λ q, qubit_in q qs) (qubits op)) moment.

(** [circuit._prev_moment_available(op, end_moment_index)]:
[[
    last_available = end_moment_index
    k = end_moment_index
    while k > 0:
        k -= 1
        if not self._can_commute_past(k, op): return last_available
        if self._can_add_op_at(k, op): last_available = k
    return last_available
]]
    On the unconstrained device an operation can be added to a moment, and
    commutes past it, when the moment does not operate on its qubits. *)
Fixpoint prev_moment_available (circuit : Circuit) (op : Operation)
    (last_available k : nat) : nat :=
  match k with
  | O => last_available
  | Datatypes.S k' =>
      if operates_on (default [] (circuit !! k')) (qubits op)
      then last_available
      else prev_moment_available circuit op k' k'
  end.

(** What [circuit.insert(len(moments), op, EARLIEST)] does with one
    operation: the index [p] of its moment is picked, missing moments are
    appended, and the operation is added to moment [p]. *)
Definition insert_earliest (circuit : Circuit) (op : Operation) : Circuit :=
  let p := prev_moment_available circuit op (length circuit) (length circuit) in
  let moments := circuit ++ replicate (p + 1 - length circuit) [] in
  alter (λ moment, moment ++ [op]) p moments.

(** [circuit.append(ops)], with the default strategy [EARLIEST]: the
    operations are inserted one after the other, each at the end. *)
Definition append (circuit : Circuit) (ops : list Operation) : Circuit :=
  foldl insert_earliest circuit ops.

(** [circuit.all_operations()]: moment by moment. *)
Definition all_operations (circuit : Circuit) : list Operation :=
  concat circuit.

End cirq.

Import cirq (Qubit, LineQubit, Operation, Circuit).

(* ================================================================== *)
(** * GLOBAL VARIABLES *)

Definition NQUBITS : Z := 4.
Definition NSTEPS : Z := 1.

(* ================================================================== *)
(** * build_circuit *)

(** The generator [g(q) for q, p in zip(qubits, ps) if p >= 0.5]. *)
Definition gate_if_big {A} (g : A → Operation) (qubits : list A)
    (ps : list float) : list Operation :=
  (λ qp, g qp.1) <$> List.filter (λ qp, ge_half qp.2) (zip qubits ps).

(** The loop
[[
    for qi, q in enumerate(qubits[:-1]):
        if params[1][qi] >= 0.5:
            circuit.append(cirq.CNOT(q, qubits[qi+1]))
]]
    over the items [it] that are still to come. *)
Fixpoint cnot_loop (qubits : list Qubit) (params : list (list float))
    (it : list (nat * Qubit)) (circuit : Circuit) : Result Circuit :=
  match it with
  | [] => Ok circuit
  | (qi, q) :: it' =>
      p1 ← getitem params 1;
      p ← getitem p1 qi;
      if ge_half p then
        q' ← getitem qubits (qi + 1);
        op ← cirq.CNOT_call q q';
        cnot_loop qubits params it' (cirq.append circuit [op])
      else
        cnot_loop qubits params it' circuit
  end.

Definition build_circuit (qubits : list Qubit) (params : list (list float))
    : Result Circuit :=
  let circuit := cirq.Circuit_new in
  p0 ← getitem params 0;
  let circuit := cirq.append circuit (gate_if_big cirq.reset qubits p0) in
  circuit ← cnot_loop qubits params (enumerate (removelast qubits)) circuit;
  p2 ← getitem params 2;
  let circuit := cirq.append circuit (gate_if_big cirq.H qubits p2) in
  p3 ← getitem params 3;
  let circuit := cirq.append circuit (gate_if_big cirq.S qubits p3) in
  p4 ← getitem params 4;
  let circuit := cirq.append circuit (gate_if_big cirq.T qubits p4) in
  p5 ← getitem params 5;
  let circuit := cirq.append circuit (gate_if_big cirq.measure qubits p5) in
  Ok circuit.

(* ================================================================== *)
(** * The world of [main]: the random source, the simulator, the terminal *)

(** What [print] can be handed.  The result object of a simulation belongs to
    the simulator; it is kept as the call that produced it. *)
Inductive Printable : Type :=
  | PStr (s : string)
  | PInt (z : Z)
  | PCircuit (c : Circuit)
  | PResult (c : Circuit) (qubit_order : list Qubit).

Inductive Event : Type :=
  | Drawn (p : float)                                  (* random.random() *)
  | Simulated (c : Circuit) (qubit_order : list Qubit) (* simulator.simulate *)
  | Printed (args : list Printable).                   (* print(...) *)

(** [source] is the sequence of floats the random source will deliver,
    [drawn] the number of them already consumed, [events] what has happened
    so far, oldest first. *)
Record World : Type := mkWorld {
  source : nat → float;
  drawn : nat;
  events : list Event
}.

Definition IO (A : Type) : Type := World → Result A * World.

#[global] Instance IO_ret : MRet IO := λ A a w, (Ok a, w).
#[global] Instance IO_bind : MBind IO :=
  λ A B f m w,
    match m w with
    | (Ok a, w') => f a w'
    | (Raise e, w') => (Raise e, w')
    end.

Definition emit (e : Event) : IO unit :=
  λ w, (Ok tt, mkWorld (source w) (drawn w) (events w ++ [e])).

(** An exception of a pure computation, raised in [IO]. *)
Definition lift {A} (r : Result A) : IO A := λ w, (r, w).

(** [random.random()]. *)
Definition random_random : IO float :=
  λ w, let p := source w (drawn w) in
       (Ok p, mkWorld (source w) (Datatypes.S (drawn w)) (events w ++ [Drawn p])).

Definition print (args : list Printable) : IO unit := emit (Printed args).

(** [simulator.simulate(circuit, qubit_order=qubits)]. *)
Definition simulate (circuit : Circuit) (qubit_order : list Qubit)
    : IO Printable :=
  _ ← emit (Simulated circuit qubit_order);
  mret (PResult circuit qubit_order).

(** [[random.random() for x in xs]]. *)
Fixpoint random_list (xs : list Z) : IO (list float) :=
  match xs with
  | [] => mret []
  | _ :: xs' =>
      p ← random_random;
      ps ← random_list xs';
      mret (p :: ps)
  end.

(** [for x in xs: body(x)]. *)
Fixpoint for_each {A} (xs : list A) (body : A → IO unit) : IO unit :=
  match xs with
  | [] => mret tt
  | x :: xs' => _ ← body x; for_each xs' body
  end.

(* ================================================================== *)
(** * random_params *)

Definition random_params (nqubits : Z) : IO (list (list float)) :=
  reset_state ← random_list (range nqubits);
  apply_CNOT ← random_list (range nqubits);
  apply_H ← random_list (range nqubits);
  apply_S ← random_list (range nqubits);
  apply_T ← random_list (range nqubits);
  do_measurement ← random_list (range nqubits);
  let output := [reset_state; apply_CNOT; apply_H; apply_S; apply_T;
                 do_measurement] in
  mret output.

(* ================================================================== *)
(** * main *)

Definition banner : string :=
  "**************************************************************".

(** The simulator that [cirq.Simulator()] makes is the one of the world.
    The loop is over [range(NSTEPS)], as the source has it. *)
Definition main (nsteps nqubits : Z) : IO unit :=
  let qubits := LineQubit <$> range nqubits in
  for_each (range NSTEPS) (λ timestep,
    params ← random_params nqubits;
    circuit ← lift (build_circuit qubits params);
    _ ← print [PStr banner];
    _ ← print [PStr "t = "; PInt timestep];
    _ ← print [PCircuit circuit];
    result ← simulate circuit qubits;
    print [result]).

(** The circuits handed to the simulator, oldest first. *)
Definition simulated (w : World) : list Circuit :=
  omap (λ e, match e with Simulated c _ => Some c | _ => None end) (events w).

(** The floats drawn from the random source, oldest first. *)
Definition draws (w : World) : list float :=
  omap (λ e, match e with Drawn p => Some p | _ => None end) (events w).

(* ================================================================== *)
(** * The data model of the construction procedure *)

(** The six phases, in the order their parameter lists are stored. *)
Inductive Phase : Set :=
  Reset | ApplyCNOT | ApplyH | ApplyS | ApplyT | Measure.

#[global] Instance Phase_eq_dec : EqDecision Phase.
Proof. solve_decision. Defined.

Definition phase_index (ph : Phase) : nat :=
  match ph with
  | Reset => 0 | ApplyCNOT => 1 | ApplyH => 2
  | ApplyS => 3 | ApplyT => 4 | Measure => 5
  end%nat.

Definition phase_of (o : Operation) : Phase :=
  match o with
  | cirq.reset _ => Reset
  | cirq.CNOT _ _ => ApplyCNOT
  | cirq.H _ => ApplyH
  | cirq.S _ => ApplyS
  | cirq.T _ => ApplyT
  | cirq.measure _ => Measure
  end.

(** A parameter matrix for [N] qubits: six lists of [N] entries each. *)
Definition ParameterMatrix (N : nat) (params : list (list float)) : Prop :=
  length params = 6%nat ∧ Forall (λ ps, length ps = N) params.

(** [matrix[phase][i]]. *)
Definition entry (params : list (list float)) (ph : Phase) (i : nat)
    : option float :=
  params !! phase_index ph ≫= (.!! i).

(** The adjacent pairs [(qubits[i], qubits[i+1])], [i] ascending. *)
Definition neighbours (qubits : list Qubit) : list (Qubit * Qubit) :=
  zip qubits (tail qubits).

Definition CNOT_on (qq : Qubit * Qubit) : Operation := cirq.CNOT qq.1 qq.2.

(** The operation of qubit [i] in a phase, for the qubits that have one. *)
Definition phase_op (ph : Phase) (qubits : list Qubit) (i : nat)
    : option Operation :=
  match ph with
  | Reset => cirq.reset <$> qubits !! i
  | ApplyCNOT => CNOT_on <$> neighbours qubits !! i
  | ApplyH => cirq.H <$> qubits !! i
  | ApplyS => cirq.S <$> qubits !! i
  | ApplyT => cirq.T <$> qubits !! i
  | Measure => cirq.measure <$> qubits !! i
  end.

(** All the operations a phase can contribute, in qubit order. *)
Definition phase_all (ph : Phase) (qubits : list Qubit) : list Operation :=
  match ph with
  | Reset => cirq.reset <$> qubits
  | ApplyCNOT => CNOT_on <$> neighbours qubits
  | ApplyH => cirq.H <$> qubits
  | ApplyS => cirq.S <$> qubits
  | ApplyT => cirq.T <$> qubits
  | Measure => cirq.measure <$> qubits
  end.

(** The operations of one phase in a sequence of operations. *)
Definition of_phase (ph : Phase) (c : list Operation) : list Operation :=
  List.filter (λ o, bool_decide (phase_of o = ph)) c.

(** The operations a run of [build_circuit] that raises nothing hands to
    [append], in the order it hands them over. *)
Definition phases (qubits : list Qubit) (p0 p1 p2 p3 p4 p5 : list float)
    : list Operation :=
  gate_if_big cirq.reset qubits p0 ++
  gate_if_big CNOT_on (neighbours qubits) p1 ++
  gate_if_big cirq.H qubits p2 ++
  gate_if_big cirq.S qubits p3 ++
  gate_if_big cirq.T qubits p4 ++
  gate_if_big cirq.measure qubits p5.

(** The chain of [main]: [[cirq.LineQubit(x) for x in range(nqubits)]]. *)
Definition chain (nqubits : Z) : list Qubit := LineQubit <$> range nqubits.

(** An operation is not of a later phase than another. *)
Definition phase_le (a b : Operation) : Prop :=
  (phase_index (phase_of a) ≤ phase_index (phase_of b))%nat.

(** The qubit an operation is emitted for (the control of a CNOT). *)
Definition qubit_of (o : Operation) : Qubit :=
  match o with
  | cirq.reset q | cirq.H q | cirq.S q | cirq.T q | cirq.measure q => q
  | cirq.CNOT control _ => control
  end.

(** The operations of a sequence that are on qubit [q]. *)
Definition on_qubit (q : Qubit) (ops : list Operation) : list Operation :=
  List.filter (λ o, cirq.qubit_in q (cirq.qubits o)) ops.

(** The pairs of neighbours whose CNOT entry is big. *)
Definition selected_pairs (qubits : list Qubit) (p1 : list float)
    : list (Qubit * Qubit) :=
  fst <$> List.filter (λ qp, ge_half qp.2) (zip (neighbours qubits) p1).

(** Some selected CNOT would be on one qubit twice. *)
Definition self_CNOT (qubits : list Qubit) (p1 : list float) : bool :=
  existsb (λ qq, bool_decide (qq.1 = qq.2)) (selected_pairs qubits p1).

(** What [build_circuit] comes to, case by case: [ValueError] from a
    selected CNOT on one qubit twice, [IndexError] from a missing list or a
    missing CNOT entry, and otherwise the new circuit with the operations of
    the six phases appended. *)
Definition outcome (qubits : list Qubit) (params : list (list float))
    : Result Circuit :=
  match params with
  | p0 :: p1 :: rest =>
      if self_CNOT qubits p1 then Raise ValueError
      else if decide (Datatypes.S (length p1) < length qubits)%nat
      then Raise IndexError
      else
        match rest with
        | p2 :: p3 :: p4 :: p5 :: _ =>
            Ok (cirq.append cirq.Circuit_new (phases qubits p0 p1 p2 p3 p4 p5))
        | _ => Raise IndexError
        end
  | _ => Raise IndexError
  end.

(** Earlier in the order "phase first, then line position". *)
Definition op_lt (a b : Operation) : Prop :=
  (phase_index (phase_of a) < phase_index (phase_of b))%nat ∨
  (phase_of a = phase_of b ∧ cirq.x_of (qubit_of a) < cirq.x_of (qubit_of b)).

(* ================================================================== *)
(** * Runs of the random source and of [main] *)

(** The floats number [d], [d+1], ..., [d+n-1] of the random source. *)
Definition delivered (w : World) (d n : nat) : list float :=
  source w <$> seq d n.

(** The world after [n] more draws. *)
Definition after_draws (w : World) (n : nat) : World :=
  mkWorld (source w) (drawn w + n)
    (events w ++ (Drawn <$> delivered w (drawn w) n)).

(** What one timestep adds to the events, after the draws of the sampler. *)
Definition timestep_events (timestep : Z) (circuit : Circuit)
    (qubits : list Qubit) : list Event :=
  [Printed [PStr banner]; Printed [PStr "t = "; PInt timestep];
   Printed [PCircuit circuit]; Simulated circuit qubits;
   Printed [PResult circuit qubits]].

(** A random source for examples: 0.25, 0.75, 0.25, 0.75, ... *)
Definition alternating : World :=
  mkWorld (λ k, if Nat.even k then 0.25 else 0.75)%float 0 [].

(* ================================================================== *)
(** * build_circuit on the store

    [qubits] and [params] are Python lists: objects of a store, handed to
    [build_circuit] by reference, and [params] holds references to the six
    parameter lists.  [ByRef.build_circuit] is [build_circuit] on that store.
    [cirq.Circuit()] and the slice [qubits[:-1]] make new objects;
    [circuit.append] updates the circuit object in place; every other step
    only reads. *)

Inductive Obj : Type :=
  | Floats (ps : list float)      (* a list of floats *)
  | Lists (ls : list positive)    (* a list of lists, by reference *)
  | Qubits (qs : list Qubit)      (* a list of qubits *)
  | ACircuit (c : Circuit).       (* a cirq.Circuit *)

Abbreviation Store := (gmap positive Obj).

Definition Py (A : Type) : Type := Store → Result A * Store.

#[global] Instance Py_ret : MRet Py := λ A a σ, (Ok a, σ).
#[global] Instance Py_bind : MBind Py :=
  λ A B f m σ,
    match m σ with
    | (Ok a, σ') => f a σ'
    | (Raise e, σ') => (Raise e, σ')
    end.

Module ByRef.

(** A new object, at a reference no object of the store has. *)
Definition new (o : Obj) : Py positive :=
  λ σ, let l := fresh (dom σ) in (Ok l, <[l:=o]> σ).

(** Reading an object as a list of floats, of lists or of qubits; an object
    of another kind is a [TypeError]. *)
Definition the_floats (l : positive) : Py (list float) :=
  λ σ, match σ !! l with
       | Some (Floats ps) => (Ok ps, σ)
       | _ => (Raise TypeError, σ)
       end.

Definition the_lists (l : positive) : Py (list positive) :=
  λ σ, match σ !! l with
       | Some (Lists ls) => (Ok ls, σ)
       | _ => (Raise TypeError, σ)
       end.

Definition the_qubits (l : positive) : Py (list Qubit) :=
  λ σ, match σ !! l with
       | Some (Qubits qs) => (Ok qs, σ)
       | _ => (Raise TypeError, σ)
       end.

(** The outcome of a pure step. *)
Definition pure {A} (r : Result A) : Py A := λ σ, (r, σ).

(** [circuit.append(ops)]: the circuit object is updated in place. *)
Definition append (circuit : positive) (ops : list Operation) : Py unit :=
  λ σ, match σ !! circuit with
       | Some (ACircuit c) =>
           (Ok tt, <[circuit:=ACircuit (cirq.append c ops)]> σ)
       | _ => (Raise TypeError, σ)
       end.

(** [g(q) for q, p in zip(qubits, params[k]) if p >= 0.5]. *)
Definition gate_if_big (g : Qubit → Operation) (qubits params : positive)
    (k : nat) : Py (list Operation) :=
  ls ← the_lists params;
  l ← pure (getitem ls k);
  qs ← the_qubits qubits;
  ps ← the_floats l;
  mret (gate_if_big g qs ps).

Fixpoint cnot_loop (qubits params : positive) (it : list (nat * Qubit))
    (circuit : positive) : Py unit :=
  match it with
  | [] => mret tt
  | (qi, q) :: it' =>
      ls ← the_lists params;
      l1 ← pure (getitem ls 1);
      p1 ← the_floats l1;
      p ← pure (getitem p1 qi);
      _ ← (if ge_half p then
             qs ← the_qubits qubits;
             q' ← pure (getitem qs (qi + 1));
             op ← pure (cirq.CNOT_call q q');
             append circuit [op]
           else mret tt);
      cnot_loop qubits params it' circuit
  end.

Definition build_circuit (qubits params : positive) : Py positive :=
  circuit ← new (ACircuit cirq.Circuit_new);
  ops ← gate_if_big cirq.reset qubits params 0;
  _ ← append circuit ops;
  qs ← the_qubits qubits;
  head ← new (Qubits (removelast qs));     (* qubits[:-1], a new list *)
  it ← the_qubits head;
  _ ← cnot_loop qubits params (enumerate it) circuit;
  ops ← gate_if_big cirq.H qubits params 2;
  _ ← append circuit ops;
  ops ← gate_if_big cirq.S qubits params 3;
  _ ← append circuit ops;
  ops ← gate_if_big cirq.T qubits params 4;
  _ ← append circuit ops;
  ops ← gate_if_big cirq.measure qubits params 5;
  _ ← append circuit ops;
  mret circuit.

End ByRef.

(** The store holds the qubit list [qs] at [qubits]. *)
Definition qubits_at (σ : Store) (qubits : positive) (qs : list Qubit) : Prop :=
  σ !! qubits = Some (Qubits qs).

(** The store holds the matrix [ps] at [params]: a list of references to
    lists of floats (two references may be to the same list). *)
Definition matrix_at (σ : Store) (params : positive)
    (ps : list (list float)) : Prop :=
  ∃ ls, σ !! params = Some (Lists ls) ∧
        Forall2 (λ l p, σ !! l = Some (Floats p)) ls ps.

(** What a call returned: the circuit the returned reference is to. *)
Definition returned (out : Result positive * Store) : Result Circuit :=
  match out.1 with
  | Ok l =>
      match out.2 !! l with
      | Some (ACircuit c) => Ok c
      | _ => Raise TypeError
      end
  | Raise e => Raise e
  end.

(** While [build_circuit] runs: the objects of the store [σ0] of the call
    are where they were, and the circuit under construction, a new object,
    holds [cur]. *)
Definition building (σ0 σ : Store) (circuit : positive) (cur : Circuit)
    : Prop :=
  σ0 ⊆ σ ∧ σ0 !! circuit = None ∧ σ !! circuit = Some (ACircuit cur).

(** A store for examples: two qubits, and a matrix whose six entries are
    references to two lists only. *)
Definition shared_lists : Store :=
  <[1%positive := Qubits (chain 2)]>
  (<[2%positive := Lists [3; 4; 3; 3; 4; 3]%positive]>
  (<[3%positive := Floats [1; 0.25]%float]>
  (<[4%positive := Floats [0.5; 1]%float]> ∅))).

(* ================================================================== *)
(** * Measures of a circuit *)

(** Every operation of every phase, in the order of the phases. *)
Definition full_circuit (qubits : list Qubit) : list Operation :=
  phase_all Reset qubits ++ phase_all ApplyCNOT qubits ++
  phase_all ApplyH qubits ++ phase_all ApplyS qubits ++
  phase_all ApplyT qubits ++ phase_all Measure qubits.

(** The number of entries [>= 0.5] among the first [n] of a list. *)
Definition big_among (n : nat) (ps : list float) : nat :=
  length (List.filter ge_half (take n ps)).

(* ================================================================== *)
(** * Sequences and the error monad *)

Lemma getitem_Ok {A} (l : list A) (i : nat) (x : A) :
  getitem l i = Ok x ↔ l !! i = Some x.
Proof. unfold getitem. destruct (l !! i); split; congruence. Qed.

Lemma getitem_Raise {A} (l : list A) (i : nat) (e : Exn) :
  getitem l i = Raise e ↔ e = IndexError ∧ (length l ≤ i)%nat.
Proof.
  unfold getitem. destruct (l !! i) eqn:E.
  - apply lookup_lt_Some in E. split; [congruence | lia].
  - apply lookup_ge_None in E. split; [intros [= <-]; done | intros [-> _]; done].
Qed.

Lemma gate_if_big_nil_l {A} (g : A → Operation) ps : gate_if_big g [] ps = [].
Proof. reflexivity. Qed.

Lemma gate_if_big_nil_r {A} (g : A → Operation) qs : gate_if_big g qs [] = [].
Proof. by destruct qs. Qed.

Lemma gate_if_big_cons {A} (g : A → Operation) q qs p ps :
  gate_if_big g (q :: qs) (p :: ps) =
  if ge_half p then g q :: gate_if_big g qs ps else gate_if_big g qs ps.
Proof. unfold gate_if_big. simpl. by destruct (ge_half p). Qed.

(* ================================================================== *)
(** * Moments: where [append] puts an operation *)

Lemma qubit_in_spec (q : Qubit) (qs : list Qubit) :
  cirq.qubit_in q qs = true ↔ q ∈ qs.
Proof.
  unfold cirq.qubit_in. rewrite existsb_exists. split.
  - intros (q' & Hin & ->%bool_decide_eq_true). by apply list_elem_of_In.
  - intros Hin. exists q. split; [by apply list_elem_of_In|].
    by apply bool_decide_eq_true.
Qed.

Lemma operates_on_false (m : cirq.Moment) (qs : list Qubit) :
  cirq.operates_on m qs = false ↔
  ∀ o q, o ∈ m → q ∈ cirq.qubits o → q ∉ qs.
Proof.
  unfold cirq.operates_on. rewrite <- not_true_iff_false, existsb_exists. split.
  - intros Hno o q Ho Hq Hqs. apply Hno. exists o.
    split; [by apply list_elem_of_In|]. apply existsb_exists. exists q.
    split; [apply list_elem_of_In, Hq | apply qubit_in_spec, Hqs].
  - intros Hno (o & Ho & (q & Hq & Hqs%qubit_in_spec)%existsb_exists).
    apply (Hno o q); first [done | by apply list_elem_of_In].
Qed.

(** The moment picked is at most [k], and no moment from it up to [k]
    operates on the qubits of the operation. *)
Lemma prev_moment_available_spec (c : Circuit) (op : Operation) (k : nat) :
  (cirq.prev_moment_available c op k k ≤ k)%nat ∧
  ∀ j, (cirq.prev_moment_available c op k k ≤ j < k)%nat →
       cirq.operates_on (default [] (c !! j)) (cirq.qubits op) = false.
Proof.
  induction k as [|k [IHle IHfree]]; simpl.
  { split; [done|]. intros j Hj. lia. }
  destruct (cirq.operates_on (default [] (c !! k)) (cirq.qubits op)) eqn:Ek.
  { split; [done|]. intros j Hj. lia. }
  split; [lia|]. intros j Hj.
  destruct (decide (j = k)) as [->|Hne]; [done|]. apply IHfree. lia.
Qed.

(** The operation is added at the end of one moment, and neither the rest
    of that moment nor any later moment is on one of its qubits. *)
Lemma insert_earliest_split (c : Circuit) (op : Operation) :
  ∃ c1 m c2,
    cirq.insert_earliest c op = c1 ++ (m ++ [op]) :: c2 ∧
    cirq.all_operations c = concat c1 ++ m ++ concat c2 ∧
    ∀ o q, o ∈ m ++ concat c2 → q ∈ cirq.qubits o → q ∉ cirq.qubits op.
Proof.
  unfold cirq.insert_earliest, cirq.all_operations.
  destruct (prev_moment_available_spec c op (length c)) as [Hle Hfree].
  set (p := cirq.prev_moment_available c op (length c) (length c)) in *.
  destruct (decide (p < length c)%nat) as [Hlt|Hge].
  - destruct (c !! p) as [m|] eqn:Hm; [|apply lookup_ge_None in Hm; lia].
    exists (take p c), m, (drop (Datatypes.S p) c).
    pose proof (take_drop_middle c p m Hm) as Hc.
    assert (length (take p c) = p) as Hlen by (rewrite length_take; lia).
    split_and!.
    + replace (p + 1 - length c)%nat with 0%nat by lia.
      simpl. rewrite app_nil_r. rewrite <- Hc at 1.
      rewrite <- Hlen at 1. rewrite <- (Nat.add_0_r (length (take p c))).
      by rewrite alter_app_r.
    + rewrite <- Hc at 1. by rewrite concat_app, concat_cons.
    + intros o q Ho Hq.
      apply elem_of_app in Ho as [Ho|Ho].
      * specialize (Hfree p ltac:(lia)). rewrite Hm in Hfree. simpl in Hfree.
        by apply (proj1 (operates_on_false _ _) Hfree o q).
      * apply list_elem_of_In, in_concat in Ho as (m' & Hm' & Ho).
        apply list_elem_of_In, list_elem_of_lookup in Hm' as [j Hj].
        rewrite lookup_drop in Hj.
        specialize (Hfree (Datatypes.S p + j)%nat).
        rewrite Hj in Hfree. simpl in Hfree.
        apply lookup_lt_Some in Hj.
        apply (proj1 (operates_on_false _ _) (Hfree ltac:(lia)) o q);
          first [done | by apply list_elem_of_In].
  - assert (p = length c) as Hp by lia.
    exists c, [], []. rewrite Hp.
    replace (length c + 1 - length c)%nat with 1%nat by lia.
    split_and!.
    + simpl. rewrite <- (Nat.add_0_r (length c)) at 1. by rewrite alter_app_r.
    + simpl. by rewrite app_nil_r.
    + intros o q Ho. by apply elem_of_nil in Ho.
Qed.

Lemma on_qubit_app (q : Qubit) (a b : list Operation) :
  on_qubit q (a ++ b) = on_qubit q a ++ on_qubit q b.
Proof. apply List.filter_app. Qed.

Lemma on_qubit_elem_of (q : Qubit) (ops : list Operation) (o : Operation) :
  o ∈ on_qubit q ops ↔ o ∈ ops ∧ q ∈ cirq.qubits o.
Proof.
  unfold on_qubit.
  rewrite !list_elem_of_In, List.filter_In, qubit_in_spec, list_elem_of_In.
  done.
Qed.

Lemma on_qubit_none (q : Qubit) (ops : list Operation) :
  (∀ o, o ∈ ops → q ∉ cirq.qubits o) → on_qubit q ops = [].
Proof.
  intros Hfree. induction ops as [|o ops IH]; [done|].
  unfold on_qubit in *. simpl.
  destruct (cirq.qubit_in q (cirq.qubits o)) eqn:Eq.
  - apply qubit_in_spec in Eq. destruct (Hfree o); [by left | done].
  - apply IH. intros o' Ho'. apply Hfree. by right.
Qed.

(** The circuit keeps every operation: the new one is added, none is
    dropped or repeated. *)
Lemma insert_earliest_ops (c : Circuit) (op : Operation) :
  cirq.all_operations (cirq.insert_earliest c op)
  ≡ₚ cirq.all_operations c ++ [op].
Proof.
  destruct (insert_earliest_split c op) as (c1 & m & c2 & -> & -> & _).
  unfold cirq.all_operations. rewrite concat_app, concat_cons.
  rewrite <- !app_assoc. do 2 f_equiv. apply Permutation_app_comm.
Qed.

(** On each qubit the new operation comes after the ones the circuit
    holds. *)
Lemma insert_earliest_on_qubit (q : Qubit) (c : Circuit) (op : Operation) :
  on_qubit q (cirq.all_operations (cirq.insert_earliest c op))
  = on_qubit q (cirq.all_operations c) ++ on_qubit q [op].
Proof.
  destruct (insert_earliest_split c op) as (c1 & m & c2 & -> & -> & Hfree).
  unfold cirq.all_operations. rewrite concat_app, concat_cons.
  rewrite !on_qubit_app.
  destruct (decide (q ∈ cirq.qubits op)) as [Hq|Hq].
  - rewrite (on_qubit_none q m), (on_qubit_none q (concat c2)).
    + by rewrite !app_nil_r.
    + intros o Ho Hin. apply (Hfree o q); [|done..].
      apply elem_of_app. by right.
    + intros o Ho Hin. apply (Hfree o q); [|done..].
      apply elem_of_app. by left.
  - rewrite (on_qubit_none q [op]).
    + by rewrite !app_nil_r.
    + by intros o ->%list_elem_of_singleton.
Qed.

Lemma append_nil (c : Circuit) : cirq.append c [] = c.
Proof. reflexivity. Qed.

Lemma append_app (c : Circuit) (a b : list Operation) :
  cirq.append (cirq.append c a) b = cirq.append c (a ++ b).
Proof. unfold cirq.append. by rewrite foldl_app. Qed.

Lemma append_ops (c : Circuit) (ops : list Operation) :
  cirq.all_operations (cirq.append c ops) ≡ₚ cirq.all_operations c ++ ops.
Proof.
  revert c. induction ops as [|op ops IH]; intros c.
  { by rewrite app_nil_r. }
  change (cirq.append c (op :: ops))
    with (cirq.append (cirq.insert_earliest c op) ops).
  rewrite IH, insert_earliest_ops. by rewrite <- app_assoc.
Qed.

Lemma append_on_qubit (q : Qubit) (c : Circuit) (ops : list Operation) :
  on_qubit q (cirq.all_operations (cirq.append c ops))
  = on_qubit q (cirq.all_operations c) ++ on_qubit q ops.
Proof.
  revert c. induction ops as [|op ops IH]; intros c.
  { by rewrite app_nil_r. }
  change (cirq.append c (op :: ops))
    with (cirq.append (cirq.insert_earliest c op) ops).
  rewrite IH, insert_earliest_on_qubit, <- app_assoc.
  by rewrite <- on_qubit_app.
Qed.

(** The operations of a new circuit to which [ops] were appended: [ops]
    up to their order, and in their order on every qubit. *)
Lemma new_circuit_ops (ops : list Operation) :
  cirq.all_operations (cirq.append cirq.Circuit_new ops) ≡ₚ ops.
Proof. by rewrite append_ops. Qed.

Lemma new_circuit_on_qubit (q : Qubit) (ops : list Operation) :
  on_qubit q (cirq.all_operations (cirq.append cirq.Circuit_new ops))
  = on_qubit q ops.
Proof. by rewrite append_on_qubit. Qed.

(* ================================================================== *)
(** * The CNOT loop *)

Lemma removelast_cons2 {A} (q q' : A) (l : list A) :
  removelast (q :: q' :: l) = q :: removelast (q' :: l).
Proof. reflexivity. Qed.

Lemma neighbours_cons2 (q q' : Qubit) (l : list Qubit) :
  neighbours (q :: q' :: l) = (q, q') :: neighbours (q' :: l).
Proof. reflexivity. Qed.

Lemma selected_pairs_cons2 (q q' : Qubit) (l : list Qubit) (p : float)
    (ps : list float) :
  selected_pairs (q :: q' :: l) (p :: ps) =
  if ge_half p then (q, q') :: selected_pairs (q' :: l) ps
  else selected_pairs (q' :: l) ps.
Proof.
  unfold selected_pairs. rewrite neighbours_cons2. simpl.
  by destruct (ge_half p).
Qed.

Lemma self_CNOT_cons2 (q q' : Qubit) (l : list Qubit) (p : float)
    (ps : list float) :
  self_CNOT (q :: q' :: l) (p :: ps) =
  (ge_half p && bool_decide (q = q')) || self_CNOT (q' :: l) ps.
Proof.
  unfold self_CNOT. rewrite selected_pairs_cons2. by destruct (ge_half p).
Qed.

Lemma self_CNOT_nil_r (qubits : list Qubit) : self_CNOT qubits [] = false.
Proof.
  unfold self_CNOT, selected_pairs.
  by destruct (neighbours qubits).
Qed.

(** The CNOTs the loop appends are those of the selected pairs. *)
Lemma gate_if_big_selected_pairs (qubits : list Qubit) (p1 : list float) :
  gate_if_big CNOT_on (neighbours qubits) p1
  = CNOT_on <$> selected_pairs qubits p1.
Proof.
  unfold gate_if_big, selected_pairs. by rewrite <- list_fmap_compose.
Qed.

(** The loop, started at position [length pre] of the chain.  The first
    selected pair of equal qubits stops it with [ValueError]; a missing
    entry stops it with [IndexError]; otherwise it appends the selected
    CNOTs of the rest. *)
Lemma cnot_loop_run (qubits : list Qubit) (params : list (list float))
    (p1 : list float) :
  params !! 1%nat = Some p1 →
  ∀ (rest pre : list Qubit) (ps_pre ps_rest : list float) (c : Circuit),
    qubits = pre ++ rest → p1 = ps_pre ++ ps_rest →
    length ps_pre = length pre →
    cnot_loop qubits params
      (zip (seq (length pre) (length (removelast rest))) (removelast rest)) c
    = if self_CNOT rest ps_rest then Raise ValueError
      else if decide (Datatypes.S (length ps_rest) < length rest)%nat
      then Raise IndexError
      else Ok (cirq.append c (gate_if_big CNOT_on (neighbours rest) ps_rest)).
Proof.
  intros Hp1. induction rest as [|q rest IH]; intros pre ps_pre ps_rest c Hq Hp Hlen.
  { by destruct ps_rest. }
  destruct rest as [|q' rest].
  { by destruct ps_rest. }
  rewrite removelast_cons2.
  cbn [length seq zip zip_with cnot_loop].
  rewrite (proj2 (getitem_Ok params 1 p1) Hp1). cbn [mbind Result_bind].
  destruct ps_rest as [|p ps_rest].
  { rewrite self_CNOT_nil_r, decide_True by (simpl; lia).
    assert (getitem p1 (length pre) = Raise IndexError) as ->; [|done].
    apply getitem_Raise. split; [done|]. subst p1.
    rewrite app_nil_r. lia. }
  assert (p1 !! length pre = Some p) as ->%getitem_Ok.
  { subst p1. rewrite lookup_app_r by lia. by rewrite Hlen, Nat.sub_diag. }
  cbn [mbind Result_bind].
  assert (getitem qubits (length pre + 1) = Ok q') as Hq'.
  { apply getitem_Ok. subst qubits. rewrite lookup_app_r by lia.
    by replace (length pre + 1 - length pre)%nat with 1%nat by lia. }
  specialize (IH (pre ++ [q]) (ps_pre ++ [p]) ps_rest).
  rewrite !length_app in IH. cbn [length] in IH.
  rewrite !Nat.add_1_r in IH.
  rewrite self_CNOT_cons2, neighbours_cons2, gate_if_big_cons.
  assert (∀ c', cnot_loop qubits params
            (zip (seq (Datatypes.S (length pre))
                    (length (removelast (q' :: rest))))
               (removelast (q' :: rest))) c'
          = if self_CNOT (q' :: rest) ps_rest then Raise ValueError
            else if decide (Datatypes.S (length (p :: ps_rest))
                            < length (q :: q' :: rest))%nat
            then Raise IndexError
            else Ok (cirq.append c'
                       (gate_if_big CNOT_on (neighbours (q' :: rest)) ps_rest)))
    as Hrest.
  { intros c'. rewrite IH; [|by rewrite <- app_assoc..|lia].
    destruct (self_CNOT (q' :: rest) ps_rest); [done|].
    cbn [length]. by repeat case_decide; try lia. }
  destruct (ge_half p); cbn [andb orb]; [|apply Hrest].
  rewrite Hq'. cbn [mbind Result_bind]. unfold cirq.CNOT_call.
  destruct (decide (q = q')) as [->|Hne].
  { by rewrite bool_decide_eq_true_2. }
  rewrite bool_decide_eq_false_2 by done. cbn [mbind Result_bind orb].
  rewrite Hrest. destruct (self_CNOT (q' :: rest) ps_rest); [done|].
  repeat case_decide; try done; simpl in *; lia.
Qed.

(** Without a [params[1]] the loop raises as soon as it has an item. *)
Lemma cnot_loop_no_list (qubits : list Qubit) (params : list (list float))
    (it : list (nat * Qubit)) (c : Circuit) :
  params !! 1%nat = None → it ≠ [] →
  cnot_loop qubits params it c = Raise IndexError.
Proof.
  intros Hp1 Hit. destruct it as [|[qi q] it]; [done|].
  cbn [cnot_loop].
  assert (getitem params 1 = Raise IndexError) as ->; [|done].
  unfold getitem. by rewrite Hp1.
Qed.

(* ================================================================== *)
(** * build_circuit in closed form *)

Lemma build_circuit_outcome (qubits : list Qubit)
    (params : list (list float)) :
  build_circuit qubits params = outcome qubits params.
Proof.
  unfold build_circuit, outcome, enumerate.
  destruct params as [|p0 [|p1 rest]]; [done| |].
  - cbn [getitem lookup list_lookup mbind Result_bind].
    destruct (zip _ (removelast qubits)) as [|[qi q] it] eqn:Eit; [done|].
    by rewrite cnot_loop_no_list.
  - cbn [getitem lookup list_lookup mbind Result_bind].
    rewrite (cnot_loop_run qubits (p0 :: p1 :: rest) p1 eq_refl
               qubits [] [] p1); [|done..].
    destruct (self_CNOT qubits p1); [done|].
    case_decide; [done|]. cbn [mbind Result_bind].
    destruct rest as [|p2 [|p3 [|p4 [|p5 more]]]]; try done.
    cbn [getitem lookup list_lookup mbind Result_bind]. f_equal.
    unfold phases. by rewrite !append_app, <- ?app_assoc.
Qed.

Lemma self_CNOT_false (qubits : list Qubit) (p1 : list float) :
  self_CNOT qubits p1 = false ↔
  ∀ i q p, qubits !! i = Some q → qubits !! Datatypes.S i = Some q →
           p1 !! i = Some p → ge_half p = false.
Proof.
  revert p1. induction qubits as [|q qubits IH]; intros p1.
  { split; [by intros _ i q p ?|done]. }
  destruct qubits as [|q' qubits].
  { split; [by intros _ [|i] q' p ? ?|]. intros _.
    unfold self_CNOT, selected_pairs. done. }
  destruct p1 as [|p p1].
  { rewrite self_CNOT_nil_r. split; [by intros _ i a b ? ? ?|done]. }
  rewrite self_CNOT_cons2, orb_false_iff, andb_false_iff, IH. split.
  - intros [Hhead Htail] [|i] a b Ha Ha' Hb.
    + simpl in *. simplify_eq. destruct Hhead as [?|Hne]; [done|].
      by rewrite bool_decide_eq_true_2 in Hne.
    + by apply (Htail i a b).
  - intros Hall. split.
    + destruct (decide (q = q')) as [->|Hne].
      * left. by apply (Hall 0%nat q' p).
      * right. by apply bool_decide_eq_false_2.
    + intros i a b Ha Ha' Hb. by apply (Hall (Datatypes.S i) a b).
Qed.

(** Distinct qubits: no CNOT is on one qubit twice. *)
Lemma NoDup_self_CNOT (qubits : list Qubit) (p1 : list float) :
  NoDup qubits → self_CNOT qubits p1 = false.
Proof.
  intros Hnd. apply self_CNOT_false. intros i q p Hq Hq' _.
  pose proof (NoDup_lookup _ _ _ _ Hnd Hq Hq'). lia.
Qed.

(** Six lists, at least [N-1] entries in the CNOT list and no selected CNOT
    on one qubit twice: nothing is raised, and the circuit is the new
    circuit with the operations of the six phases appended in turn. *)
Lemma build_circuit_six (qubits : list Qubit)
    (p0 p1 p2 p3 p4 p5 : list float) (more : list (list float)) :
  (length qubits ≤ Datatypes.S (length p1))%nat →
  self_CNOT qubits p1 = false →
  build_circuit qubits (p0 :: p1 :: p2 :: p3 :: p4 :: p5 :: more)
  = Ok (cirq.append cirq.Circuit_new (phases qubits p0 p1 p2 p3 p4 p5)).
Proof.
  intros Hle Hself. rewrite build_circuit_outcome. unfold outcome.
  rewrite Hself. by rewrite decide_False by lia.
Qed.

(** A call that returns was given six lists at least, the CNOT list with
    [N-1] entries at least and no selected CNOT on one qubit twice, and
    returns the new circuit with the six phases appended. *)
Lemma build_circuit_Ok_inv (qubits : list Qubit) (params : list (list float))
    (c : Circuit) :
  build_circuit qubits params = Ok c →
  ∃ p0 p1 p2 p3 p4 p5 more,
    params = p0 :: p1 :: p2 :: p3 :: p4 :: p5 :: more ∧
    (length qubits ≤ Datatypes.S (length p1))%nat ∧
    self_CNOT qubits p1 = false ∧
    c = cirq.append cirq.Circuit_new (phases qubits p0 p1 p2 p3 p4 p5).
Proof.
  rewrite build_circuit_outcome. unfold outcome.
  destruct params as [|p0 [|p1 rest]]; try done.
  destruct (self_CNOT qubits p1) eqn:Hself; [done|].
  case_decide; [done|].
  destruct rest as [|p2 [|p3 [|p4 [|p5 more]]]]; try done.
  intros [= <-]. exists p0, p1, p2, p3, p4, p5, more.
  split_and!; [done|lia|done..].
Qed.

(** Which exception, and when. *)
Lemma build_circuit_Raise (qubits : list Qubit) (params : list (list float))
    (e : Exn) :
  build_circuit qubits params = Raise e ↔
  (e = ValueError ∧
   ∃ p1, params !! 1%nat = Some p1 ∧ self_CNOT qubits p1 = true) ∨
  (e = IndexError ∧
   (∀ p1, params !! 1%nat = Some p1 → self_CNOT qubits p1 = false) ∧
   ((length params < 6)%nat ∨
    ∃ p1, params !! 1%nat = Some p1 ∧
          (Datatypes.S (length p1) < length qubits)%nat)).
Proof.
  rewrite build_circuit_outcome. unfold outcome.
  destruct params as [|p0 [|p1 rest]].
  - split; [intros [= <-]; right|intros [(_ & ? & ? & _)|(-> & _)]; done].
    split_and!; [done|done|left; simpl; lia].
  - split; [intros [= <-]; right|intros [(_ & ? & ? & _)|(-> & _)]; done].
    split_and!; [done|done|left; simpl; lia].
  - destruct (self_CNOT qubits p1) eqn:Hself.
    { split.
      - intros [= <-]. left. split; [done|]. by exists p1.
      - intros [(-> & _)|(_ & Hno & _)]; [done|].
        specialize (Hno p1 eq_refl). congruence. }
    assert (∀ p1', (p0 :: p1 :: rest) !! 1%nat = Some p1' →
                   self_CNOT qubits p1' = false) as Hno.
    { by intros p1' [= <-]. }
    case_decide as Hlen.
    { split.
      - intros [= <-]. right. split_and!; [done|done|]. right. by exists p1.
      - intros [(_ & p1' & [= <-] & ?)|(-> & _)]; [congruence|done]. }
    destruct rest as [|p2 [|p3 [|p4 [|p5 more]]]];
      try (split; [intros [= <-]; right; split_and!; [done|done|left; simpl; lia]
                  |intros [(_ & p1' & [= <-] & ?)|(-> & _)];
                     [congruence|done]]).
    split; [done|].
    intros [(_ & p1' & [= <-] & ?)|(_ & _ & [Hlt|(p1' & [= <-] & ?)])];
      [congruence|simpl in Hlt; lia|lia].
Qed.

(** A matrix of matching shape for distinct qubits: the builder raises
    nothing. *)
Lemma build_circuit_matrix (qubits : list Qubit) (params : list (list float)) :
  NoDup qubits →
  ParameterMatrix (length qubits) params →
  ∃ p0 p1 p2 p3 p4 p5,
    params = [p0; p1; p2; p3; p4; p5] ∧
    Forall (λ ps, length ps = length qubits) [p0; p1; p2; p3; p4; p5] ∧
    build_circuit qubits params
    = Ok (cirq.append cirq.Circuit_new (phases qubits p0 p1 p2 p3 p4 p5)).
Proof.
  intros Hnd [Hlen Hall].
  destruct params as [|p0 [|p1 [|p2 [|p3 [|p4 [|p5 [|]]]]]]]; try done.
  exists p0, p1, p2, p3, p4, p5. split; [done|]. split; [done|].
  apply build_circuit_six; [|by apply NoDup_self_CNOT].
  apply Forall_cons in Hall as [_ [-> _]%Forall_cons]. lia.
Qed.

(* ================================================================== *)
(** * One phase *)

Section one_phase.
Context {A : Type} (g : A → Operation).

Lemma gate_if_big_sublist (xs : list A) (ps : list float) :
  gate_if_big g xs ps `sublist_of` g <$> xs.
Proof.
  revert ps. induction xs as [|x xs IH]; intros [|p ps];
    rewrite ?gate_if_big_nil_l, ?gate_if_big_nil_r; try apply sublist_nil_l.
  rewrite gate_if_big_cons, fmap_cons.
  destruct (ge_half p); [by apply sublist_skip | by apply sublist_cons].
Qed.

Lemma gate_if_big_phase (ph : Phase) (xs : list A) (ps : list float) :
  (∀ x, phase_of (g x) = ph) →
  Forall (λ o, phase_of o = ph) (gate_if_big g xs ps).
Proof.
  intros Hg. unfold gate_if_big. apply Forall_fmap, Forall_forall.
  intros x _. apply Hg.
Qed.

(** What a phase emits: the operations of the positions whose entry is big. *)
Lemma gate_if_big_elem_of (xs : list A) (ps : list float) (o : Operation) :
  o ∈ gate_if_big g xs ps ↔
  ∃ i x p, xs !! i = Some x ∧ ps !! i = Some p ∧ ge_half p = true ∧ o = g x.
Proof.
  revert ps. induction xs as [|x xs IH]; intros [|p ps];
    rewrite ?gate_if_big_nil_l, ?gate_if_big_nil_r.
  1-3: split; [by intros ?%elem_of_nil | by intros (i & ? & ? & ? & ? & _)].
  rewrite gate_if_big_cons. split.
  - destruct (ge_half p) eqn:Ep.
    + intros [->|(i & y & r & ? & ? & ? & ->)%IH]%elem_of_cons.
      * by exists 0%nat, x, p.
      * by exists (Datatypes.S i), y, r.
    + intros (i & y & r & ? & ? & ? & ->)%IH. by exists (Datatypes.S i), y, r.
  - intros ([|i] & y & r & Hx & Hp & Hr & ->); simpl in Hx, Hp.
    + injection Hx as ->. injection Hp as ->. rewrite Hr. apply elem_of_cons. by left.
    + assert (g y ∈ gate_if_big g xs ps) by (apply IH; by exists i, y, r).
      destruct (ge_half p); [apply elem_of_cons; by right | done].
Qed.

(** With distinct operations, position [i] is emitted exactly when its entry
    is big. *)
Lemma gate_if_big_at (xs : list A) (ps : list float) (i : nat) (x : A)
    (p : float) :
  NoDup (g <$> xs) → xs !! i = Some x → ps !! i = Some p →
  g x ∈ gate_if_big g xs ps ↔ ge_half p = true.
Proof.
  intros Hnd Hx Hp. rewrite gate_if_big_elem_of. split.
  - intros (j & y & r & Hy & Hr & Hbig & Heq).
    assert (i = j) as <-.
    { eapply NoDup_lookup; [done| |].
      - rewrite list_lookup_fmap, Hx. done.
      - rewrite list_lookup_fmap, Hy. simpl. by rewrite Heq. }
    congruence.
  - intros Hbig. by exists i, x, p.
Qed.

Lemma gate_if_big_all (xs : list A) (ps : list float) :
  (length xs ≤ length ps)%nat → Forall (λ p, ge_half p = true) ps →
  gate_if_big g xs ps = g <$> xs.
Proof.
  revert ps. induction xs as [|x xs IH]; intros [|p ps] Hlen Hall; try done.
  { simpl in Hlen. lia. }
  rewrite gate_if_big_cons. apply Forall_cons in Hall as [-> Hall].
  rewrite fmap_cons. f_equal. apply IH; [simpl in Hlen; lia | done].
Qed.

(** Entries beyond the last qubit are not looked at, and a missing entry
    selects nothing: the list may be cut or padded with [0.0]. *)
Lemma gate_if_big_resize (xs : list A) (ps : list float) (n : nat) :
  (length xs ≤ n)%nat →
  gate_if_big g xs (resize n 0%float ps) = gate_if_big g xs ps.
Proof.
  revert ps n. induction xs as [|x xs IH]; intros ps n Hn; [done|].
  destruct n as [|n]; [simpl in Hn; lia|].
  destruct ps as [|p ps].
  - rewrite resize_nil. simpl replicate. rewrite gate_if_big_cons.
    change (ge_half 0) with false. rewrite gate_if_big_nil_r.
    rewrite <- (resize_nil n 0%float).
    rewrite IH by (simpl in Hn; lia). apply gate_if_big_nil_r.
  - cbn [resize]. rewrite !gate_if_big_cons.
    rewrite IH by (simpl in Hn; lia). done.
Qed.

Lemma gate_if_big_none (xs : list A) (ps : list float) :
  Forall (λ p, ge_half p = false) ps → gate_if_big g xs ps = [].
Proof.
  revert ps. induction xs as [|x xs IH]; intros [|p ps] Hall; try done.
  rewrite gate_if_big_cons. apply Forall_cons in Hall as [-> Hall]. by apply IH.
Qed.

End one_phase.

(* ================================================================== *)
(** * The order of the operations *)

Lemma of_phase_app (ph : Phase) (c1 c2 : list Operation) :
  of_phase ph (c1 ++ c2) = of_phase ph c1 ++ of_phase ph c2.
Proof. apply List.filter_app. Qed.

Lemma of_phase_same (ph : Phase) (c : list Operation) :
  Forall (λ o, phase_of o = ph) c → of_phase ph c = c.
Proof.
  induction 1 as [|o c Ho _ IH]; [done|].
  unfold of_phase in *. simpl. rewrite bool_decide_eq_true_2 by done.
  by rewrite IH.
Qed.

Lemma of_phase_other (ph ph' : Phase) (c : list Operation) :
  ph' ≠ ph → Forall (λ o, phase_of o = ph') c → of_phase ph c = [].
Proof.
  intros Hne. induction 1 as [|o c Ho _ IH]; [done|].
  unfold of_phase in *. simpl. rewrite bool_decide_eq_false_2 by congruence.
  done.
Qed.

Lemma phases_blocks (qubits : list Qubit) (p0 p1 p2 p3 p4 p5 : list float) :
  Forall (λ o, phase_of o = Reset) (gate_if_big cirq.reset qubits p0) ∧
  Forall (λ o, phase_of o = ApplyCNOT)
    (gate_if_big CNOT_on (neighbours qubits) p1) ∧
  Forall (λ o, phase_of o = ApplyH) (gate_if_big cirq.H qubits p2) ∧
  Forall (λ o, phase_of o = ApplyS) (gate_if_big cirq.S qubits p3) ∧
  Forall (λ o, phase_of o = ApplyT) (gate_if_big cirq.T qubits p4) ∧
  Forall (λ o, phase_of o = Measure) (gate_if_big cirq.measure qubits p5).
Proof. repeat split; by apply gate_if_big_phase. Qed.

(** The operations of one phase of the built circuit are what the phase's
    generator emitted. *)
Lemma of_phase_phases (ph : Phase) (qubits : list Qubit)
    (p0 p1 p2 p3 p4 p5 : list float) :
  of_phase ph (phases qubits p0 p1 p2 p3 p4 p5) =
  match ph with
  | Reset => gate_if_big cirq.reset qubits p0
  | ApplyCNOT => gate_if_big CNOT_on (neighbours qubits) p1
  | ApplyH => gate_if_big cirq.H qubits p2
  | ApplyS => gate_if_big cirq.S qubits p3
  | ApplyT => gate_if_big cirq.T qubits p4
  | Measure => gate_if_big cirq.measure qubits p5
  end.
Proof.
  destruct (phases_blocks qubits p0 p1 p2 p3 p4 p5)
    as (H0 & H1 & H2 & H3 & H4 & H5).
  unfold phases. rewrite !of_phase_app.
  destruct ph;
    repeat match goal with
    | H : Forall (λ o, phase_of o = ?ph') ?c |- context [of_phase ?ph ?c] =>
        first [ rewrite (of_phase_same ph c H)
              | rewrite (of_phase_other ph ph' c ltac:(discriminate) H) ];
        clear H
    end;
    by rewrite ?app_nil_r.
Qed.

Lemma same_phase_sorted (ph : Phase) (c : list Operation) :
  Forall (λ o, phase_of o = ph) c → StronglySorted phase_le c.
Proof.
  induction 1 as [|o c Ho Hc IH]; constructor; [done|].
  eapply Forall_impl; [exact Hc|]. intros o' Ho'. unfold phase_le.
  by rewrite Ho, Ho'.
Qed.

Lemma blocks_sorted (ph ph' : Phase) (c c' : list Operation) :
  (phase_index ph ≤ phase_index ph')%nat →
  Forall (λ o, phase_of o = ph) c →
  Forall (λ o, (phase_index ph' ≤ phase_index (phase_of o))%nat) c' →
  StronglySorted phase_le c' →
  StronglySorted phase_le (c ++ c') ∧
  Forall (λ o, (phase_index ph ≤ phase_index (phase_of o))%nat) (c ++ c').
Proof.
  intros Hle Hc Hc' Hs. split.
  - apply StronglySorted_app. split_and!; [|by eapply same_phase_sorted|done].
    intros a b Ha Hb. unfold phase_le.
    rewrite Forall_forall in Hc, Hc'. rewrite (Hc a Ha).
    specialize (Hc' b Hb). lia.
  - apply Forall_app. split.
    + eapply Forall_impl; [exact Hc|]. by intros o ->.
    + eapply Forall_impl; [exact Hc'|]. intros o Ho. simpl in Ho. lia.
Qed.

Lemma phases_sorted (qubits : list Qubit) (p0 p1 p2 p3 p4 p5 : list float) :
  StronglySorted phase_le (phases qubits p0 p1 p2 p3 p4 p5).
Proof.
  destruct (phases_blocks qubits p0 p1 p2 p3 p4 p5)
    as (H0 & H1 & H2 & H3 & H4 & H5).
  unfold phases.
  assert (Forall (λ o, (phase_index Measure ≤ phase_index (phase_of o))%nat)
            (gate_if_big cirq.measure qubits p5)) as H5'.
  { eapply Forall_impl; [exact H5|]. by intros o ->. }
  pose proof (same_phase_sorted _ _ H5) as S5.
  destruct (blocks_sorted ApplyT Measure _ _ ltac:(simpl; lia) H4 H5' S5) as [S4 H4'].
  destruct (blocks_sorted ApplyS ApplyT _ _ ltac:(simpl; lia) H3 H4' S4) as [S3 H3'].
  destruct (blocks_sorted ApplyH ApplyS _ _ ltac:(simpl; lia) H2 H3' S3) as [S2 H2'].
  destruct (blocks_sorted ApplyCNOT ApplyH _ _ ltac:(simpl; lia) H1 H2' S2) as [S1 H1'].
  by destruct (blocks_sorted Reset ApplyCNOT _ _ ltac:(simpl; lia) H0 H1' S1).
Qed.

Lemma phase_sublist (ph : Phase) (qubits : list Qubit)
    (p0 p1 p2 p3 p4 p5 : list float) :
  of_phase ph (phases qubits p0 p1 p2 p3 p4 p5) `sublist_of` phase_all ph qubits.
Proof.
  rewrite of_phase_phases. destruct ph; apply gate_if_big_sublist.
Qed.

(* ================================================================== *)
(** * The chain of [main] *)

Lemma StronglySorted_sublist {A} (R : relation A) (l k : list A) :
  l `sublist_of` k → StronglySorted R k → StronglySorted R l.
Proof.
  induction 1 as [|x l k Hsub IH|x l k Hsub IH]; intros Hk; [done|..].
  - apply StronglySorted_cons in Hk as [Hx Hk].
    apply StronglySorted_cons. split; [|by apply IH].
    rewrite Forall_forall in Hx |- *. intros y Hy. apply Hx.
    by eapply elem_of_sublist.
  - apply StronglySorted_cons in Hk as [_ Hk]. by apply IH.
Qed.

Lemma seq_sorted (a n : nat) : StronglySorted lt (seq a n).
Proof.
  revert a. induction n as [|n IH]; intros a; simpl; constructor; [apply IH|].
  apply Forall_forall. intros i Hi%list_elem_of_In%in_seq. lia.
Qed.

Lemma chain_sorted (nqubits : Z) :
  StronglySorted (λ a b, cirq.x_of a < cirq.x_of b) (chain nqubits).
Proof.
  unfold chain, range. rewrite <- list_fmap_compose.
  eapply StronglySorted_fmap; [|apply seq_sorted].
  intros i j Hij. simpl. lia.
Qed.

Lemma chain_length (nqubits : Z) : length (chain nqubits) = Z.to_nat nqubits.
Proof. unfold chain, range. by rewrite !length_fmap, length_seq. Qed.

Lemma chain_lookup (nqubits : Z) (i : nat) (q : Qubit) :
  chain nqubits !! i = Some q ↔
  q = LineQubit (Z.of_nat i) ∧ Z.of_nat i < nqubits.
Proof.
  unfold chain, range. rewrite !list_lookup_fmap. split.
  - destruct (seq 0 (Z.to_nat nqubits) !! i) as [j|] eqn:E; [|done].
    apply lookup_seq in E as [-> ?]. intros [= <-]. simpl. split; [done|lia].
  - intros [-> Hlt]. rewrite (lookup_seq_lt 0 (Z.to_nat nqubits) i) by lia. done.
Qed.

Lemma chain_NoDup (nqubits : Z) : NoDup (chain nqubits).
Proof.
  unfold chain, range. rewrite <- list_fmap_compose.
  apply NoDup_fmap_2; [|apply NoDup_seq].
  intros i j [= Hij]. lia.
Qed.

(** The operations a phase can contribute on a line-sorted qubit sequence
    are in ascending line position. *)
Lemma zip_fst_sorted {A B} (R : relation A) (l : list A) (k : list B) :
  StronglySorted R l → StronglySorted (λ a b, R a.1 b.1) (zip l k).
Proof.
  intros Hl. revert k. induction Hl as [|a l Hl IH Ha]; intros [|b k];
    simpl; try constructor; [apply IH|].
  apply Forall_forall. intros [a' b'] Hin. simpl.
  rewrite Forall_forall in Ha. apply Ha.
  apply (elem_of_zip_l _ _ _ _ Hin).
Qed.

Lemma phase_all_sorted (ph : Phase) (qubits : list Qubit) :
  StronglySorted (λ a b, cirq.x_of a < cirq.x_of b) qubits →
  StronglySorted op_lt (phase_all ph qubits).
Proof.
  intros Hs.
  destruct ph; simpl;
    try (eapply StronglySorted_fmap; [|exact Hs];
         intros a b Hab; right; by split).
  eapply StronglySorted_fmap;
    [|apply (zip_fst_sorted _ qubits (tail qubits) Hs)].
  intros a b Hab. right. by split.
Qed.

Lemma op_lt_blocks (ph ph' : Phase) (c c' : list Operation) :
  (phase_index ph < phase_index ph')%nat →
  Forall (λ o, phase_of o = ph) c →
  Forall (λ o, (phase_index ph' ≤ phase_index (phase_of o))%nat) c' →
  StronglySorted op_lt c → StronglySorted op_lt c' →
  StronglySorted op_lt (c ++ c') ∧
  Forall (λ o, (phase_index ph ≤ phase_index (phase_of o))%nat) (c ++ c').
Proof.
  intros Hlt Hc Hc' Hs Hs'. split.
  - apply StronglySorted_app. split_and!; [|done..].
    intros a b Ha Hb. left.
    rewrite Forall_forall in Hc, Hc'. rewrite (Hc a Ha).
    specialize (Hc' b Hb). lia.
  - apply Forall_app. split.
    + eapply Forall_impl; [exact Hc|]. by intros o ->.
    + eapply Forall_impl; [exact Hc'|]. intros o Ho. simpl in Ho. lia.
Qed.

(** On a line-sorted qubit sequence the built circuit is strictly ascending
    in "phase first, then line position". *)
Lemma phases_line_sorted (qubits : list Qubit)
    (p0 p1 p2 p3 p4 p5 : list float) :
  StronglySorted (λ a b, cirq.x_of a < cirq.x_of b) qubits →
  StronglySorted op_lt (phases qubits p0 p1 p2 p3 p4 p5).
Proof.
  intros Hs.
  destruct (phases_blocks qubits p0 p1 p2 p3 p4 p5)
    as (H0 & H1 & H2 & H3 & H4 & H5).
  assert (∀ ph, StronglySorted op_lt
            (of_phase ph (phases qubits p0 p1 p2 p3 p4 p5))) as Hblock.
  { intros ph. eapply StronglySorted_sublist; [apply phase_sublist|].
    by apply phase_all_sorted. }
  pose proof (Hblock Reset) as S0. pose proof (Hblock ApplyCNOT) as S1.
  pose proof (Hblock ApplyH) as S2. pose proof (Hblock ApplyS) as S3.
  pose proof (Hblock ApplyT) as S4. pose proof (Hblock Measure) as S5.
  rewrite of_phase_phases in S0, S1, S2, S3, S4, S5. clear Hblock.
  unfold phases.
  assert (Forall (λ o, (phase_index Measure ≤ phase_index (phase_of o))%nat)
            (gate_if_big cirq.measure qubits p5)) as H5'.
  { eapply Forall_impl; [exact H5|]. by intros o ->. }
  destruct (op_lt_blocks ApplyT Measure _ _ ltac:(simpl; lia) H4 H5' S4 S5) as [T4 H4'].
  destruct (op_lt_blocks ApplyS ApplyT _ _ ltac:(simpl; lia) H3 H4' S3 T4) as [T3 H3'].
  destruct (op_lt_blocks ApplyH ApplyS _ _ ltac:(simpl; lia) H2 H3' S2 T3) as [T2 H2'].
  destruct (op_lt_blocks ApplyCNOT ApplyH _ _ ltac:(simpl; lia) H1 H2' S1 T2) as [T1 H1'].
  by destruct (op_lt_blocks Reset ApplyCNOT _ _ ltac:(simpl; lia) H0 H1' S0 T1).
Qed.

Lemma on_qubit_sublist (q : Qubit) (ops : list Operation) :
  on_qubit q ops `sublist_of` ops.
Proof.
  induction ops as [|o ops IH]; [done|]. unfold on_qubit in *. simpl.
  destruct (cirq.qubit_in q (cirq.qubits o));
    [by apply sublist_skip | by apply sublist_cons].
Qed.

(** C1, refuted as stated.  Three distinct qubits and a matrix of matching
    shape that selects Reset on qubit 0, the CNOT of qubits 0 and 1 and H on
    qubit 2: the operation sequence of the built circuit is Reset(0), H(2),
    CNOT(0,1).  H(2) is placed in the first moment, where qubit 2 is free,
    and so comes before the CNOT of the earlier phase. *)
Lemma phase_order_broken :
  NoDup (chain 3) ∧
  ParameterMatrix (length (chain 3))
    [[1; 0; 0]; [1; 0; 0]; [0; 0; 1]; [0; 0; 0]; [0; 0; 0]; [0; 0; 0]]%float ∧
  build_circuit (chain 3)
    [[1; 0; 0]; [1; 0; 0]; [0; 0; 1]; [0; 0; 0]; [0; 0; 0]; [0; 0; 0]]%float
  = Ok [[cirq.reset (LineQubit 0); cirq.H (LineQubit 2)];
        [cirq.CNOT (LineQubit 0) (LineQubit 1)]] ∧
  cirq.all_operations
    [[cirq.reset (LineQubit 0); cirq.H (LineQubit 2)];
     [cirq.CNOT (LineQubit 0) (LineQubit 1)]]
  = [cirq.reset (LineQubit 0); cirq.H (LineQubit 2);
     cirq.CNOT (LineQubit 0) (LineQubit 1)] ∧
  ¬ StronglySorted phase_le
      [cirq.reset (LineQubit 0); cirq.H (LineQubit 2);
       cirq.CNOT (LineQubit 0) (LineQubit 1)].
Proof.
  split_and!; [apply chain_NoDup|split; [done|repeat constructor]|done|done|].
  intros Hs. apply StronglySorted_cons in Hs as [_ Hs].
  apply StronglySorted_cons in Hs as [Hle _].
  apply Forall_cons in Hle as [Hle _]. unfold phase_le in Hle. simpl in Hle. lia.
Qed.

(** C1, as the code has it.  For distinct qubits and a parameter matrix of
    matching length the builder returns a circuit.  It hands its operations
    to the circuit, the selected ones of each of the six lists, grouped in
    the phase order Reset, CNOT, H, S, T, Measure, within a phase in
    ascending qubit index.  The built circuit holds exactly these operations,
    and on every qubit they come in the order they were handed over: no
    operation of a later phase on a qubit comes before an operation of an
    earlier phase on that qubit.  (Operations on different qubits may come in
    another order, as each is placed in the earliest moment where its qubits
    are free.) *)
Theorem build_circuit_phase_order (qubits : list Qubit)
    (params : list (list float)) :
  NoDup qubits →
  ParameterMatrix (length qubits) params →
  ∃ p0 p1 p2 p3 p4 p5 c,
    params = [p0; p1; p2; p3; p4; p5] ∧
    build_circuit qubits params = Ok c ∧
    let ops := phases qubits p0 p1 p2 p3 p4 p5 in
    c = cirq.append cirq.Circuit_new ops ∧
    StronglySorted phase_le ops ∧
    (∀ ph, of_phase ph ops `sublist_of` phase_all ph qubits) ∧
    (StronglySorted (λ a b, cirq.x_of a < cirq.x_of b) qubits →
     StronglySorted op_lt ops) ∧
    cirq.all_operations c ≡ₚ ops ∧
    (∀ q, on_qubit q (cirq.all_operations c) = on_qubit q ops) ∧
    (∀ q, StronglySorted phase_le (on_qubit q (cirq.all_operations c))).
Proof.
  intros Hnd (p0 & p1 & p2 & p3 & p4 & p5 & -> & _ & Hc)%build_circuit_matrix;
    [|done].
  eexists p0, p1, p2, p3, p4, p5, _. split; [done|]. split; [exact Hc|].
  cbv zeta. split_and!; [done|..].
  - apply phases_sorted.
  - intros ph. apply phase_sublist.
  - apply phases_line_sorted.
  - apply new_circuit_ops.
  - intros q. apply new_circuit_on_qubit.
  - intros q. rewrite new_circuit_on_qubit.
    eapply StronglySorted_sublist; [apply on_qubit_sublist|].
    apply phases_sorted.
Qed.

Lemma build_circuit_phase_order_witness :
  ∃ p0 p1 p2 p3 p4 p5 c,
    [[1; 0; 0]; [1; 0; 0]; [0; 0; 1]; [0; 0; 0]; [0; 0; 0]; [0; 0; 0]]%float
    = [p0; p1; p2; p3; p4; p5] ∧
    build_circuit (chain 3)
      [[1; 0; 0]; [1; 0; 0]; [0; 0; 1]; [0; 0; 0]; [0; 0; 0]; [0; 0; 0]]%float
    = Ok c ∧
    let ops := phases (chain 3) p0 p1 p2 p3 p4 p5 in
    c = cirq.append cirq.Circuit_new ops ∧
    StronglySorted phase_le ops ∧
    (∀ ph, of_phase ph ops `sublist_of` phase_all ph (chain 3)) ∧
    (StronglySorted (λ a b, cirq.x_of a < cirq.x_of b) (chain 3) →
     StronglySorted op_lt ops) ∧
    cirq.all_operations c ≡ₚ ops ∧
    (∀ q, on_qubit q (cirq.all_operations c) = on_qubit q ops) ∧
    (∀ q, StronglySorted phase_le (on_qubit q (cirq.all_operations c))).
Proof.
  apply build_circuit_phase_order.
  - apply chain_NoDup.
  - split; [reflexivity | repeat constructor].
Defined.

(* ================================================================== *)
(** * Which operations are in the circuit *)

Lemma elem_of_of_phase (o : Operation) (c : list Operation) :
  o ∈ c ↔ o ∈ of_phase (phase_of o) c.
Proof.
  unfold of_phase. rewrite !list_elem_of_In, List.filter_In.
  split; [intros Hin; split; [done | by apply bool_decide_eq_true_2] | by intros [? _]].
Qed.

Lemma neighbours_lookup (qubits : list Qubit) (i : nat) (a b : Qubit) :
  neighbours qubits !! i = Some (a, b) ↔
  qubits !! i = Some a ∧ qubits !! Datatypes.S i = Some b.
Proof.
  unfold neighbours. rewrite <- lookup_tail. split.
  - intros (x & y & [= -> ->] & ? & ?)%lookup_zip_with_Some. done.
  - intros [? ?]. apply lookup_zip_with_Some. by exists a, b.
Qed.

Lemma neighbours_length (qubits : list Qubit) :
  length (neighbours qubits) = (length qubits - 1)%nat.
Proof.
  unfold neighbours. rewrite length_zip.
  destruct qubits as [|q qubits]; [done|]. cbn [tail length]. lia.
Qed.

Lemma zip_fst_sublist {A B} (l : list A) (k : list B) :
  (zip l k).*1 `sublist_of` l.
Proof.
  revert k. induction l as [|a l IH]; intros [|b k]; simpl;
    try apply sublist_nil_l.
  apply sublist_skip, IH.
Qed.

Lemma neighbours_NoDup (qubits : list Qubit) :
  NoDup qubits → NoDup (neighbours qubits).
Proof.
  intros Hnd. apply (NoDup_fmap_1 fst).
  by apply (sublist_NoDup _ qubits), zip_fst_sublist.
Qed.

(** The CNOTs of the built circuit join a qubit and its right neighbour. *)
Lemma CNOT_in_phases (qubits : list Qubit) (p0 p1 p2 p3 p4 p5 : list float)
    (a b : Qubit) :
  cirq.CNOT a b ∈ phases qubits p0 p1 p2 p3 p4 p5 ↔
  ∃ i p, qubits !! i = Some a ∧ qubits !! Datatypes.S i = Some b ∧
         p1 !! i = Some p ∧ ge_half p = true.
Proof.
  rewrite elem_of_of_phase, of_phase_phases. simpl.
  rewrite gate_if_big_elem_of. split.
  - intros (i & [a' b'] & p & Hn & Hp & Hbig & [= -> ->]).
    apply neighbours_lookup in Hn as [? ?]. by exists i, p.
  - intros (i & p & Ha & Hb & Hp & Hbig). exists i, (a, b), p.
    split_and!; [by apply neighbours_lookup|done..].
Qed.

Lemma CNOT_range (qubits : list Qubit) (p0 p1 p2 p3 p4 p5 : list float)
    (a b : Qubit) :
  cirq.CNOT a b ∈ phases qubits p0 p1 p2 p3 p4 p5 →
  ∃ i, (i + 2 ≤ length qubits)%nat ∧
       qubits !! i = Some a ∧ qubits !! (i + 1)%nat = Some b.
Proof.
  intros (i & p & Ha & Hb & _)%CNOT_in_phases. exists i.
  rewrite Nat.add_1_r. split_and!; [|done..].
  apply lookup_lt_Some in Hb. lia.
Qed.

(** The operations of a new circuit to which [ops] were appended are the
    members of [ops]. *)
Lemma in_new_circuit (o : Operation) (ops : list Operation) :
  o ∈ cirq.all_operations (cirq.append cirq.Circuit_new ops) ↔ o ∈ ops.
Proof. by rewrite new_circuit_ops. Qed.

Lemma of_new_circuit (o : Operation) (ops : list Operation) :
  o ∈ cirq.all_operations (cirq.append cirq.Circuit_new ops) → o ∈ ops.
Proof. apply in_new_circuit. Qed.

(** C4.  For distinct qubits and a parameter matrix of matching length,
    every CNOT of the built circuit has its control at an index [i] in
    [0..N-2] of the qubit sequence and its target at index [i+1]; qubit [N-1]
    (the last one) is never a control. *)
Theorem CNOT_control_range (qubits : list Qubit)
    (params : list (list float)) :
  NoDup qubits →
  ParameterMatrix (length qubits) params →
  ∃ c, build_circuit qubits params = Ok c ∧
       (∀ a b, cirq.CNOT a b ∈ cirq.all_operations c →
          ∃ i, (i + 2 ≤ length qubits)%nat ∧
               qubits !! i = Some a ∧ qubits !! (i + 1)%nat = Some b) ∧
       (∀ q b, qubits !! (length qubits - 1)%nat = Some q →
               cirq.CNOT q b ∉ cirq.all_operations c).
Proof.
  intros Hnd (p0 & p1 & p2 & p3 & p4 & p5 & -> & _ & Hc)%build_circuit_matrix;
    [|done].
  eexists. split; [exact Hc|].
  split; [intros a b Hin%of_new_circuit; by apply CNOT_range in Hin|].
  intros q b Hlast (i & Hi & Ha & _)%of_new_circuit%CNOT_range.
  pose proof (NoDup_lookup _ _ _ _ Hnd Ha Hlast). lia.
Qed.

Lemma CNOT_control_range_witness :
  ∃ c, build_circuit (chain 3)
         [[1; 0; 1]; [1; 1; 1]; [1; 1; 0]; [0; 0; 0]; [0.5; 0.25; 1]; [1; 1; 1]]%float
       = Ok c ∧
       (∀ a b, cirq.CNOT a b ∈ cirq.all_operations c →
          ∃ i, (i + 2 ≤ length (chain 3))%nat ∧
               chain 3 !! i = Some a ∧ chain 3 !! (i + 1)%nat = Some b) ∧
       (∀ q b, chain 3 !! (length (chain 3) - 1)%nat = Some q →
               cirq.CNOT q b ∉ cirq.all_operations c).
Proof.
  apply CNOT_control_range.
  - apply chain_NoDup.
  - split; [reflexivity | repeat constructor].
Defined.

(** On the chain of [main] the CNOTs are [CNOT(i, i+1)] for [0 <= i <= N-2]. *)
Lemma CNOT_on_chain (nqubits : Z) (params : list (list float)) (c : Circuit)
    (a b : Qubit) :
  build_circuit (chain nqubits) params = Ok c →
  cirq.CNOT a b ∈ cirq.all_operations c →
  ∃ i, 0 ≤ i ≤ nqubits - 2 ∧ a = LineQubit i ∧ b = LineQubit (i + 1).
Proof.
  intros (p0 & p1 & p2 & p3 & p4 & p5 & more & _ & _ & _ & ->)%build_circuit_Ok_inv.
  intros (i & _ & [-> _]%chain_lookup & [-> Hlt]%chain_lookup)
    %of_new_circuit%CNOT_range.
  exists (Z.of_nat i). split_and!; [lia|lia|done|f_equal; lia].
Qed.

(* ================================================================== *)
(** * The threshold *)

Lemma SFcompare_Lt_swap (x y : spec_float) :
  SFcompare x y = Some Lt → SFcompare y x = Some Gt.
Proof.
  destruct x as [sx|sx| |sx mx ex], y as [sy|sy| |sy my ey]; simpl;
    repeat match goal with s : bool |- _ => destruct s end; try congruence.
  all: rewrite (Z.compare_antisym ex ey);
       change (PosDef.Pos.compare_cont Eq my mx) with (Pos.compare my mx);
       change (PosDef.Pos.compare_cont Eq mx my) with (Pos.compare mx my);
       rewrite (Pos.compare_antisym mx my);
       destruct (ex ?= ey)%Z; simpl; try congruence;
       destruct (mx ?= my)%positive; simpl; congruence.
Qed.

(** A float strictly below [0.5] is not [>= 0.5]. *)
Lemma below_half (p : float) :
  (p <? 0.5)%float = true → ge_half p = false.
Proof.
  unfold ge_half. rewrite ltb_spec, leb_spec. unfold SFltb, SFleb.
  destruct (SFcompare (Prim2SF p) (Prim2SF 0.5)) as [[]|] eqn:E; try done.
  intros _. by rewrite (SFcompare_Lt_swap _ _ E).
Qed.

Lemma entry_lookup (p0 p1 p2 p3 p4 p5 : list float) (ph : Phase) (i : nat) :
  entry [p0; p1; p2; p3; p4; p5] ph i =
  match ph with
  | Reset => p0 | ApplyCNOT => p1 | ApplyH => p2
  | ApplyS => p3 | ApplyT => p4 | Measure => p5
  end !! i.
Proof. by destruct ph. Qed.

Lemma phase_op_lt (ph : Phase) (qubits : list Qubit) (i : nat)
    (o : Operation) :
  phase_op ph qubits i = Some o → (i < length qubits)%nat.
Proof.
  destruct ph; simpl; intros [x [Hx _]]%fmap_Some;
    try by apply lookup_lt_Some in Hx.
  apply lookup_lt_Some in Hx. rewrite neighbours_length in Hx. lia.
Qed.

Lemma phase_op_phase (ph : Phase) (qubits : list Qubit) (i : nat)
    (o : Operation) :
  phase_op ph qubits i = Some o → phase_of o = ph.
Proof. destruct ph; simpl; by intros [x [_ ->]]%fmap_Some. Qed.

(** The operation of position [i] of a phase is in the built circuit exactly
    when the phase's entry [i] is big. *)
Lemma phase_op_in_phases (qubits : list Qubit)
    (p0 p1 p2 p3 p4 p5 : list float) (ph : Phase) (i : nat) (o : Operation)
    (p : float) :
  NoDup qubits →
  phase_op ph qubits i = Some o →
  entry [p0; p1; p2; p3; p4; p5] ph i = Some p →
  o ∈ phases qubits p0 p1 p2 p3 p4 p5 ↔ ge_half p = true.
Proof.
  intros Hnd Ho Hp. rewrite entry_lookup in Hp.
  rewrite elem_of_of_phase, (phase_op_phase _ _ _ _ Ho), of_phase_phases.
  destruct ph; simpl in Ho; apply fmap_Some in Ho as [x [Hx ->]];
    (eapply gate_if_big_at; [|done..]).
  2: { apply NoDup_fmap_2_strong; [|by apply neighbours_NoDup].
       intros [a b] [a' b'] _ _ [= -> ->]. done. }
  all: apply NoDup_fmap_2_strong; [|done]; by intros a b _ _ [= ->].
Qed.

Lemma phase_op_defined (qubits : list Qubit) (ph : Phase) (i : nat) :
  (i < length qubits)%nat →
  is_Some (phase_op ph qubits i) ∨
  (ph = ApplyCNOT ∧ i = (length qubits - 1)%nat).
Proof.
  intros Hi.
  destruct ph; simpl; rewrite fmap_is_Some;
    try (left; by apply lookup_lt_is_Some).
  destruct (decide (i < length (neighbours qubits))%nat) as [Hlt|Hge].
  - left. by apply lookup_lt_is_Some.
  - right. split; [done|]. rewrite neighbours_length in Hge. lia.
Qed.

(** C5.  For every phase and every qubit, the built circuit contains the
    qubit's operation for the phase if and only if the phase's entry for the
    qubit is [>= 0.5].  Every qubit has an operation in every phase, but for
    the last qubit in the CNOT phase, which has no right neighbour.  An entry
    equal to [0.5] counts as big, an entry strictly below [0.5] does not. *)
Theorem included_iff_big (qubits : list Qubit) (params : list (list float)) :
  NoDup qubits →
  ParameterMatrix (length qubits) params →
  (∃ c, build_circuit qubits params = Ok c ∧
        ∀ ph i o, phase_op ph qubits i = Some o →
          ∃ p, entry params ph i = Some p ∧
               (o ∈ cirq.all_operations c ↔ ge_half p = true)) ∧
  (∀ ph i, (i < length qubits)%nat →
     is_Some (phase_op ph qubits i) ∨
     (ph = ApplyCNOT ∧ i = (length qubits - 1)%nat)) ∧
  ge_half 0.5 = true ∧
  (∀ p, (p <? 0.5)%float = true → ge_half p = false).
Proof.
  intros Hnd (p0 & p1 & p2 & p3 & p4 & p5 & -> & Hlen & Hc)%build_circuit_matrix;
    [|done].
  split_and!; [|apply phase_op_defined|done|apply below_half].
  eexists. split; [exact Hc|].
  intros ph i o Ho.
  assert (is_Some (entry [p0; p1; p2; p3; p4; p5] ph i)) as [p Hp].
  { rewrite entry_lookup. apply lookup_lt_is_Some.
    apply phase_op_lt in Ho.
    rewrite !Forall_cons in Hlen.
    destruct Hlen as (? & ? & ? & ? & ? & ? & _), ph; lia. }
  exists p. split; [done|]. rewrite in_new_circuit.
  by apply phase_op_in_phases with ph i.
Qed.

Lemma included_iff_big_witness :
  (∃ c, build_circuit (chain 2)
          [[0.5; 0.25]; [1; 1]; [0; 1]; [0; 0]; [1; 0]; [0.75; 0.5]]%float
        = Ok c ∧
        ∀ ph i o, phase_op ph (chain 2) i = Some o →
          ∃ p, entry [[0.5; 0.25]; [1; 1]; [0; 1]; [0; 0]; [1; 0];
                      [0.75; 0.5]]%float ph i = Some p ∧
               (o ∈ cirq.all_operations c ↔ ge_half p = true)) ∧
  (∀ ph i, (i < length (chain 2))%nat →
     is_Some (phase_op ph (chain 2) i) ∨
     (ph = ApplyCNOT ∧ i = (length (chain 2) - 1)%nat)) ∧
  ge_half 0.5 = true ∧
  (∀ p, (p <? 0.5)%float = true → ge_half p = false).
Proof.
  apply included_iff_big.
  - apply chain_NoDup.
  - split; [reflexivity | repeat constructor].
Defined.

(* ================================================================== *)
(** * All entries [1.0], all entries [0.0], and the example *)

Lemma phase_all_length (ph : Phase) (qubits : list Qubit) :
  length (phase_all ph qubits) =
  if decide (ph = ApplyCNOT) then (length qubits - 1)%nat else length qubits.
Proof.
  destruct ph; simpl; rewrite length_fmap; try done. apply neighbours_length.
Qed.

Lemma phases_ones (qubits : list Qubit) :
  let ones := replicate (length qubits) 1%float in
  phases qubits ones ones ones ones ones ones =
  phase_all Reset qubits ++ phase_all ApplyCNOT qubits ++
  phase_all ApplyH qubits ++ phase_all ApplyS qubits ++
  phase_all ApplyT qubits ++ phase_all Measure qubits.
Proof.
  intros ones. unfold phases.
  assert (Forall (λ p, ge_half p = true) ones) as Hbig.
  { apply Forall_forall. by intros p [-> _]%elem_of_replicate. }
  assert (length ones = length qubits) as Hlen by apply length_replicate.
  by rewrite !gate_if_big_all
    by first [exact Hbig | rewrite ?neighbours_length; lia].
Qed.

Lemma phases_zeros (qubits : list Qubit) :
  let zeros := replicate (length qubits) 0%float in
  phases qubits zeros zeros zeros zeros zeros zeros = [].
Proof.
  intros zeros. unfold phases.
  assert (Forall (λ p, ge_half p = false) zeros) as Hsmall.
  { apply Forall_forall. by intros p [-> _]%elem_of_replicate. }
  by rewrite !gate_if_big_none.
Qed.

Lemma of_phase_Permutation (ph : Phase) (l l' : list Operation) :
  l ≡ₚ l' → of_phase ph l ≡ₚ of_phase ph l'.
Proof.
  unfold of_phase. induction 1 as [|o l l' _ IH|o o' l|l l' l'' _ IH _ IH'];
    simpl; [done| | |by etrans].
  - destruct (bool_decide _); by rewrite IH.
  - repeat destruct (bool_decide _); try done. apply perm_swap.
Qed.

Lemma full_circuit_ones (qubits : list Qubit) :
  let ones := replicate (length qubits) 1%float in
  phases qubits ones ones ones ones ones ones = full_circuit qubits.
Proof. apply phases_ones. Qed.

Lemma of_phase_full_circuit (ph : Phase) (qubits : list Qubit) :
  of_phase ph (full_circuit qubits) = phase_all ph qubits.
Proof.
  rewrite <- full_circuit_ones, of_phase_phases.
  destruct ph; simpl; apply gate_if_big_all;
    rewrite ?neighbours_length, ?length_replicate; try lia;
    apply Forall_forall; by intros p [-> _]%elem_of_replicate.
Qed.

Lemma full_circuit_length (qubits : list Qubit) :
  length (full_circuit qubits) = (5 * length qubits + (length qubits - 1))%nat.
Proof.
  unfold full_circuit. rewrite !length_app, !phase_all_length. simpl. lia.
Qed.

(** C6, refuted as stated.  Four distinct qubits and all entries [1.0]: the
    operation sequence of the built circuit holds H(0) before CNOT(2,3), and
    further operations out of phase order.  H(0) is placed in the third
    moment, next to CNOT(1,2), as qubit 0 is free after CNOT(0,1). *)
Lemma all_ones_out_of_phase_order :
  ∃ c, build_circuit (chain 4) (replicate 6 (replicate 4 1%float)) = Ok c ∧
       cirq.all_operations c =
         [cirq.reset (LineQubit 0); cirq.reset (LineQubit 1);
          cirq.reset (LineQubit 2); cirq.reset (LineQubit 3);
          cirq.CNOT (LineQubit 0) (LineQubit 1);
          cirq.CNOT (LineQubit 1) (LineQubit 2); cirq.H (LineQubit 0);
          cirq.CNOT (LineQubit 2) (LineQubit 3); cirq.H (LineQubit 1);
          cirq.S (LineQubit 0); cirq.H (LineQubit 2); cirq.H (LineQubit 3);
          cirq.S (LineQubit 1); cirq.T (LineQubit 0); cirq.S (LineQubit 2);
          cirq.S (LineQubit 3); cirq.T (LineQubit 1);
          cirq.measure (LineQubit 0); cirq.T (LineQubit 2);
          cirq.T (LineQubit 3); cirq.measure (LineQubit 1);
          cirq.measure (LineQubit 2); cirq.measure (LineQubit 3)] ∧
       cirq.all_operations c ≠ full_circuit (chain 4) ∧
       ¬ StronglySorted phase_le (cirq.all_operations c).
Proof.
  eexists. split; [vm_compute; reflexivity|]. split; [reflexivity|]. split.
  - vm_compute. discriminate.
  - intros Hs. vm_compute cirq.all_operations in Hs.
    do 6 apply StronglySorted_cons in Hs as [_ Hs].
    apply StronglySorted_cons in Hs as [Hle _].
    apply Forall_cons in Hle as [Hle _]. unfold phase_le in Hle. simpl in Hle. lia.
Qed.

(** C6, as the code has it.  For [N >= 1] distinct qubits and a matrix whose
    entries are all [1.0], the builder hands every operation of every phase
    to the circuit, each phase in ascending qubit index and the phases in the
    order Reset, CNOT, H, S, T, Measure.  The built circuit holds exactly
    these operations, [N] each for Reset, H, S, T and Measure, [N-1] for
    CNOT, [6N-1] in all, and on every qubit in the order they were handed
    over.  With all entries [0.0] the circuit is empty. *)
Theorem all_ones_all_zeros (qubits : list Qubit) :
  (1 ≤ length qubits)%nat →
  NoDup qubits →
  let N := length qubits in
  (∃ c, build_circuit qubits (replicate 6 (replicate N 1%float)) = Ok c ∧
        c = cirq.append cirq.Circuit_new
              (phase_all Reset qubits ++ phase_all ApplyCNOT qubits ++
               phase_all ApplyH qubits ++ phase_all ApplyS qubits ++
               phase_all ApplyT qubits ++ phase_all Measure qubits) ∧
        cirq.all_operations c ≡ₚ
          phase_all Reset qubits ++ phase_all ApplyCNOT qubits ++
          phase_all ApplyH qubits ++ phase_all ApplyS qubits ++
          phase_all ApplyT qubits ++ phase_all Measure qubits ∧
        (∀ q, on_qubit q (cirq.all_operations c) =
              on_qubit q (phase_all Reset qubits ++
                          phase_all ApplyCNOT qubits ++
                          phase_all ApplyH qubits ++ phase_all ApplyS qubits ++
                          phase_all ApplyT qubits ++ phase_all Measure qubits)) ∧
        (∀ ph, length (of_phase ph (cirq.all_operations c)) =
               if decide (ph = ApplyCNOT) then (N - 1)%nat else N) ∧
        Z.of_nat (length (cirq.all_operations c)) = 6 * Z.of_nat N - 1) ∧
  build_circuit qubits (replicate 6 (replicate N 0%float)) = Ok [].
Proof.
  intros HN Hnd N. subst N. fold (full_circuit qubits). split.
  - eexists. split.
    { cbn [replicate].
      rewrite build_circuit_six
        by (by apply NoDup_self_CNOT || (rewrite length_replicate; lia)).
      by rewrite full_circuit_ones. }
    split_and!; [done|apply new_circuit_ops|intros q; apply new_circuit_on_qubit|..].
    + intros ph. rewrite (of_phase_Permutation _ _ _ (new_circuit_ops _)).
      by rewrite of_phase_full_circuit, phase_all_length.
    + rewrite new_circuit_ops, full_circuit_length. lia.
  - cbn [replicate].
    rewrite build_circuit_six
      by (by apply NoDup_self_CNOT || (rewrite length_replicate; lia)).
    by rewrite phases_zeros.
Qed.

Lemma all_ones_all_zeros_witness :
  let qubits := chain 4 in
  let N := length qubits in
  (∃ c, build_circuit qubits (replicate 6 (replicate N 1%float)) = Ok c ∧
        c = cirq.append cirq.Circuit_new
              (phase_all Reset qubits ++ phase_all ApplyCNOT qubits ++
               phase_all ApplyH qubits ++ phase_all ApplyS qubits ++
               phase_all ApplyT qubits ++ phase_all Measure qubits) ∧
        cirq.all_operations c ≡ₚ
          phase_all Reset qubits ++ phase_all ApplyCNOT qubits ++
          phase_all ApplyH qubits ++ phase_all ApplyS qubits ++
          phase_all ApplyT qubits ++ phase_all Measure qubits ∧
        (∀ q, on_qubit q (cirq.all_operations c) =
              on_qubit q (phase_all Reset qubits ++
                          phase_all ApplyCNOT qubits ++
                          phase_all ApplyH qubits ++ phase_all ApplyS qubits ++
                          phase_all ApplyT qubits ++ phase_all Measure qubits)) ∧
        (∀ ph, length (of_phase ph (cirq.all_operations c)) =
               if decide (ph = ApplyCNOT) then (N - 1)%nat else N) ∧
        Z.of_nat (length (cirq.all_operations c)) = 6 * Z.of_nat N - 1) ∧
  build_circuit qubits (replicate 6 (replicate N 0%float)) = Ok [].
Proof.
  apply (all_ones_all_zeros (chain 4)).
  - simpl. lia.
  - apply chain_NoDup.
Defined.

(** C9.  For two qubits and the matrix [[1,0],[1,_],[0,0],[0,0],[0,0],[1,1]],
    whatever the second CNOT entry is, the builder returns the circuit whose
    operation sequence is [Reset(0), CNOT(0,1), Measure(0), Measure(1)]:
    three moments, the two measurements in the last. *)
Theorem example_two_qubits (unused : float) :
  build_circuit (chain 2)
    [[1; 0]; [1; unused]; [0; 0]; [0; 0]; [0; 0]; [1; 1]]%float
  = Ok [[cirq.reset (LineQubit 0)];
        [cirq.CNOT (LineQubit 0) (LineQubit 1)];
        [cirq.measure (LineQubit 0); cirq.measure (LineQubit 1)]] ∧
  cirq.all_operations
    [[cirq.reset (LineQubit 0)];
     [cirq.CNOT (LineQubit 0) (LineQubit 1)];
     [cirq.measure (LineQubit 0); cirq.measure (LineQubit 1)]]
  = [cirq.reset (LineQubit 0); cirq.CNOT (LineQubit 0) (LineQubit 1);
     cirq.measure (LineQubit 0); cirq.measure (LineQubit 1)].
Proof.
  split; [|reflexivity].
  change (chain 2) with [LineQubit 0; LineQubit 1].
  rewrite build_circuit_six by (reflexivity || (simpl; lia)).
  unfold phases, neighbours. simpl zip. rewrite !gate_if_big_cons.
  reflexivity.
Qed.

(** The second example of the specification: three qubits, only the CNOT
    list non-zero. *)
Lemma example_three_qubits (unused : float) :
  build_circuit (chain 3)
    [[0; 0; 0]; [1; 1; unused]; [0; 0; 0]; [0; 0; 0]; [0; 0; 0]; [0; 0; 0]]%float
  = Ok [[cirq.CNOT (LineQubit 0) (LineQubit 1)];
        [cirq.CNOT (LineQubit 1) (LineQubit 2)]] ∧
  cirq.all_operations
    [[cirq.CNOT (LineQubit 0) (LineQubit 1)];
     [cirq.CNOT (LineQubit 1) (LineQubit 2)]]
  = [cirq.CNOT (LineQubit 0) (LineQubit 1);
     cirq.CNOT (LineQubit 1) (LineQubit 2)].
Proof. split; reflexivity. Qed.

(* ================================================================== *)
(** * A matrix of the wrong shape *)

Lemma phases_resize (qubits : list Qubit) (p0 p1 p2 p3 p4 p5 : list float) :
  let cut := resize (length qubits) 0%float in
  phases qubits (cut p0) (cut p1) (cut p2) (cut p3) (cut p4) (cut p5)
  = phases qubits p0 p1 p2 p3 p4 p5.
Proof.
  intros cut. unfold phases, cut.
  by rewrite !gate_if_big_resize by (rewrite ?neighbours_length; lia).
Qed.

(** A selected CNOT joins a qubit with itself exactly when some position of
    the qubit list repeats its qubit at the next position and the CNOT entry
    of that position is at least one half. *)
Lemma self_CNOT_true (qubits : list Qubit) (p1 : list float) :
  self_CNOT qubits p1 = true ↔
  ∃ i q p, qubits !! i = Some q ∧ qubits !! Datatypes.S i = Some q ∧
           p1 !! i = Some p ∧ ge_half p = true.
Proof.
  revert p1. induction qubits as [|q qubits IH]; intros p1.
  { split; [done|]. by intros (i & q & p & ? & _). }
  destruct qubits as [|q' qubits].
  { split; [done|]. by intros ([|i] & q' & p & ? & ? & _). }
  destruct p1 as [|p p1].
  { rewrite self_CNOT_nil_r. split; [done|]. by intros (i & a & b & _ & _ & ? & _). }
  rewrite self_CNOT_cons2, orb_true_iff, andb_true_iff, IH. split.
  - intros [[Hp ->%bool_decide_eq_true]|(i & a & b & Ha & Ha' & Hb & Hge)].
    + by exists 0%nat, q', p.
    + by exists (Datatypes.S i), a, b.
  - intros ([|i] & a & b & Ha & Ha' & Hb & Hge).
    + left. simpl in *. simplify_eq. split; [done|]. by apply bool_decide_eq_true_2.
    + right. by exists i, a, b.
Qed.

Lemma self_CNOT_resize (qubits : list Qubit) (p1 : list float) :
  self_CNOT qubits p1 = false →
  self_CNOT qubits (resize (length qubits) 0%float p1) = false.
Proof.
  rewrite !self_CNOT_false. intros Hall i q p Hq Hq' Hp.
  apply lookup_lt_Some in Hq' as Hi.
  destruct (decide (i < length p1)%nat) as [Hlt|Hge].
  - rewrite lookup_resize in Hp by lia. by apply (Hall i q p).
  - rewrite lookup_resize_new in Hp by lia. by injection Hp as <-.
Qed.

(** C2, refuted as stated.  Two qubits and six lists of lengths 3, 1, 1, 0,
    2, 2: the shape does not match, and the builder returns a circuit.  The
    third entry of the first list is dropped, the qubits beyond the end of a
    short list get no operation, and nothing is raised. *)
Lemma shape_mismatch_not_rejected :
  ¬ ParameterMatrix 2 [[1; 1; 1]; [1]; [1]; []; [0; 0]; [0; 0]]%float ∧
  build_circuit [LineQubit 0; LineQubit 1]
    [[1; 1; 1]; [1]; [1]; []; [0; 0]; [0; 0]]%float
  = Ok [[cirq.reset (LineQubit 0); cirq.reset (LineQubit 1)];
        [cirq.CNOT (LineQubit 0) (LineQubit 1)];
        [cirq.H (LineQubit 0)]].
Proof.
  split; [|reflexivity].
  intros [_ Hall]. apply Forall_cons in Hall as [Hlen _]. simpl in Hlen. lia.
Qed.

(** C2, as the code has it.  The builder makes no shape check, and it raises
    in two cases only.  It raises [ValueError] exactly when a selected CNOT
    would join a qubit with itself: some position [i] of the qubit list
    holds the same qubit as position [i+1] and the CNOT entry [i] is at
    least one half.  Otherwise it raises [IndexError] exactly when [params]
    holds fewer than six lists or its CNOT list holds fewer than [N-1]
    entries.  With distinct qubits [IndexError] is the one exception.  In
    every other case it returns a circuit, the one it builds from the first
    six lists each cut or padded with [0.0] to length [N]: entries beyond
    the last qubit are ignored and a qubit without an entry gets no
    operation. *)
Theorem build_circuit_no_shape_check (qubits : list Qubit)
    (params : list (list float)) :
  let self_joined :=
    ∃ p1 i q p, params !! 1%nat = Some p1 ∧
                qubits !! i = Some q ∧ qubits !! Datatypes.S i = Some q ∧
                p1 !! i = Some p ∧ ge_half p = true in
  let too_short :=
    (length params < 6)%nat ∨
    ∃ p1, params !! 1%nat = Some p1 ∧
          (Datatypes.S (length p1) < length qubits)%nat in
  (∀ e, build_circuit qubits params = Raise e ↔
        (e = ValueError ∧ self_joined) ∨
        (e = IndexError ∧ ¬ self_joined ∧ too_short)) ∧
  (NoDup qubits → ¬ self_joined) ∧
  (∀ c, build_circuit qubits params = Ok c →
        build_circuit qubits
          (resize (length qubits) 0%float <$> take 6 params) = Ok c).
Proof.
  intros self_joined too_short.
  assert (∀ p1, params !! 1%nat = Some p1 →
                self_CNOT qubits p1 = true ↔ self_joined) as Hjoined.
  { intros p1 Hp1. rewrite self_CNOT_true. unfold self_joined. split.
    - intros (i & q & p & H). by exists p1, i, q, p.
    - intros (p1' & i & q & p & Hp1' & H). simplify_eq. by exists i, q, p. }
  assert ((∀ p1, params !! 1%nat = Some p1 → self_CNOT qubits p1 = false)
          ↔ ¬ self_joined) as Hnot.
  { split.
    - intros Hall (p1 & i & q & p & Hp1 & H).
      specialize (Hall p1 Hp1). rewrite self_CNOT_false in Hall.
      destruct H as (Hq & Hq' & Hp & Hge).
      specialize (Hall i q p Hq Hq' Hp). congruence.
    - intros Hno p1 Hp1. apply not_true_is_false.
      by rewrite (Hjoined p1 Hp1). }
  split_and!.
  - intros e. rewrite build_circuit_Raise, Hnot.
    apply or_iff_compat_r, and_iff_compat_l. split.
    + intros (p1 & Hp1 & Hself). by apply (Hjoined p1).
    + intros (p1 & i & q & p & Hp1 & H). exists p1. split; [done|]. apply (Hjoined p1 Hp1).
      by exists p1, i, q, p.
  - intros Hnd (p1 & i & q & p & _ & Hq & Hq' & _).
    pose proof (NoDup_lookup _ _ _ _ Hnd Hq Hq'). lia.
  - intros c (p0 & p1 & p2 & p3 & p4 & p5 & more & -> & Hlen & Hself & ->)
      %build_circuit_Ok_inv.
    cbn [take fmap list_fmap].
    rewrite build_circuit_six
      by (by apply self_CNOT_resize || (rewrite length_resize; lia)).
    do 2 f_equal. apply phases_resize.
Qed.


(* ================================================================== *)
(** * random_params *)

Lemma IO_bind_Ok {A B} (m : IO A) (f : A → IO B) (w w' : World) (a : A) :
  m w = (Ok a, w') → (m ≫= f) w = f a w'.
Proof. intros Hm. unfold mbind, IO_bind. by rewrite Hm. Qed.

Lemma after_draws_0 (w : World) : after_draws w 0 = w.
Proof.
  destruct w as [src d ev]. unfold after_draws, delivered. simpl.
  by rewrite Nat.add_0_r, app_nil_r.
Qed.

Lemma after_draws_add (w : World) (n m : nat) :
  after_draws (after_draws w n) m = after_draws w (n + m).
Proof.
  unfold after_draws, delivered. simpl. f_equal; [lia|].
  rewrite <- app_assoc. f_equal.
  by rewrite seq_app, !fmap_app.
Qed.

Lemma random_list_run (xs : list Z) (w : World) :
  random_list xs w =
  (Ok (delivered w (drawn w) (length xs)), after_draws w (length xs)).
Proof.
  revert w. induction xs as [|x xs IH]; intros w.
  { simpl. by rewrite after_draws_0. }
  cbn [random_list].
  erewrite IO_bind_Ok; [|reflexivity].
  erewrite IO_bind_Ok; [|apply IH].
  unfold mret, IO_ret. f_equal.
  unfold after_draws, delivered. simpl. f_equal; [lia|].
  rewrite <- app_assoc. done.
Qed.

Lemma range_length (n : Z) : length (range n) = Z.to_nat n.
Proof. unfold range. by rewrite length_fmap, length_seq. Qed.

(** The six lists are six consecutive runs of [n] draws. *)
Lemma random_params_run (nqubits : Z) (w : World) :
  let n := Z.to_nat nqubits in
  let d := drawn w in
  random_params nqubits w =
  (Ok [delivered w d n; delivered w (d + n) n; delivered w (d + 2 * n) n;
       delivered w (d + 3 * n) n; delivered w (d + 4 * n) n;
       delivered w (d + 5 * n) n],
   after_draws w (6 * n)).
Proof.
  intros n d. unfold random_params.
  do 6 (erewrite IO_bind_Ok; [|apply random_list_run]).
  rewrite range_length. fold n.
  rewrite !after_draws_add. unfold mret, IO_ret.
  f_equal; [|f_equal; lia].
  unfold after_draws, delivered; simpl. fold d.
  repeat (f_equal; try lia).
Qed.

Lemma delivered_length (w : World) (d n : nat) : length (delivered w d n) = n.
Proof. unfold delivered. by rewrite length_fmap, length_seq. Qed.

Lemma delivered_app (w : World) (d n m d' : nat) :
  d' = (d + n)%nat →
  delivered w d n ++ delivered w d' m = delivered w d (n + m).
Proof. intros ->. unfold delivered. by rewrite seq_app, fmap_app. Qed.

Lemma draws_after_draws (w : World) (n : nat) :
  draws (after_draws w n) = draws w ++ delivered w (drawn w) n.
Proof.
  unfold draws, after_draws. simpl. rewrite omap_app. f_equal.
  induction (delivered w (drawn w) n) as [|p ps IH]; [done|].
  cbn. by f_equal.
Qed.

(** C7.  For every [N] the sampler returns exactly six lists, in the order
    Reset, ApplyCNOT, ApplyH, ApplyS, ApplyT, Measure, each of length [N]
    (empty for [N = 0]); the [6N] entries are [6N] consecutive draws of the
    random source, the Reset list drawn first, so each entry is in [[0, 1)]
    as the draws of the source are. *)
Theorem random_params_matrix (nqubits : Z) (w : World) :
  (∀ k, in_unit (source w k) = true) →
  ∃ reset_state apply_CNOT apply_H apply_S apply_T do_measurement w',
    random_params nqubits w =
      (Ok [reset_state; apply_CNOT; apply_H; apply_S; apply_T;
           do_measurement], w') ∧
    Forall (λ ps, length ps = Z.to_nat nqubits ∧
                  Forall (λ p, in_unit p = true) ps)
      [reset_state; apply_CNOT; apply_H; apply_S; apply_T; do_measurement] ∧
    reset_state ++ apply_CNOT ++ apply_H ++ apply_S ++ apply_T ++
      do_measurement = delivered w (drawn w) (6 * Z.to_nat nqubits) ∧
    draws w' = draws w ++ delivered w (drawn w) (6 * Z.to_nat nqubits) ∧
    (nqubits = 0 →
     [reset_state; apply_CNOT; apply_H; apply_S; apply_T; do_measurement]
     = [[]; []; []; []; []; []]).
Proof.
  intros Hunit. pose proof (random_params_run nqubits w) as Hrun.
  cbv zeta in Hrun. set (n := Z.to_nat nqubits) in *. set (d := drawn w) in *.
  eexists _, _, _, _, _, _, _. split; [exact Hrun|].
  assert (∀ a, length (delivered w a n) = n ∧
               Forall (λ p, in_unit p = true) (delivered w a n)) as Hlist.
  { intros a. split; [apply delivered_length|].
    unfold delivered. apply Forall_fmap, Forall_forall. intros k _. apply Hunit. }
  split_and!.
  - repeat (apply Forall_cons; split; [apply Hlist|]). constructor.
  - rewrite (delivered_app w (d + 4 * n)) by lia.
    rewrite (delivered_app w (d + 3 * n)) by lia.
    rewrite (delivered_app w (d + 2 * n)) by lia.
    rewrite (delivered_app w (d + n)) by lia.
    rewrite (delivered_app w d) by lia. f_equal; lia.
  - apply draws_after_draws.
  - intros ->. done.
Qed.

Lemma random_params_matrix_witness :
  ∃ reset_state apply_CNOT apply_H apply_S apply_T do_measurement w',
    random_params 2 alternating =
      (Ok [reset_state; apply_CNOT; apply_H; apply_S; apply_T;
           do_measurement], w') ∧
    Forall (λ ps, length ps = Z.to_nat 2 ∧
                  Forall (λ p, in_unit p = true) ps)
      [reset_state; apply_CNOT; apply_H; apply_S; apply_T; do_measurement] ∧
    reset_state ++ apply_CNOT ++ apply_H ++ apply_S ++ apply_T ++
      do_measurement
    = delivered alternating (drawn alternating) (6 * Z.to_nat 2) ∧
    draws w' = draws alternating ++
               delivered alternating (drawn alternating) (6 * Z.to_nat 2) ∧
    ((2 : Z) = 0 →
     [reset_state; apply_CNOT; apply_H; apply_S; apply_T; do_measurement]
     = [[]; []; []; []; []; []]).
Proof.
  apply (random_params_matrix 2 alternating).
  intros k. simpl. destruct (Nat.even k); reflexivity.
Defined.

(* ================================================================== *)
(** * main *)

Lemma random_params_ParameterMatrix (nqubits : Z) (w w' : World)
    (params : list (list float)) :
  random_params nqubits w = (Ok params, w') →
  ParameterMatrix (Z.to_nat nqubits) params.
Proof.
  rewrite random_params_run. intros [= <- _].
  split; [done|]. repeat constructor; apply delivered_length.
Qed.

Lemma simulated_after_draws (w : World) (n : nat) :
  simulated (after_draws w n) = simulated w.
Proof.
  unfold simulated, after_draws. simpl. rewrite omap_app.
  induction (delivered w (drawn w) n) as [|p ps IH]; [by rewrite app_nil_r|].
  done.
Qed.

(** A run of [main]: one timestep, numbered [0], whatever [nsteps] is. *)
Lemma main_run (nsteps nqubits : Z) (w : World) :
  ∃ params circuit,
    random_params nqubits w = (Ok params, after_draws w (6 * Z.to_nat nqubits)) ∧
    build_circuit (chain nqubits) params = Ok circuit ∧
    main nsteps nqubits w =
    (Ok tt,
     mkWorld (source w) (drawn w + 6 * Z.to_nat nqubits)
       (events (after_draws w (6 * Z.to_nat nqubits)) ++
        timestep_events 0 circuit (chain nqubits))).
Proof.
  assert (∃ params, random_params nqubits w =
            (Ok params, after_draws w (6 * Z.to_nat nqubits))) as [params Hrun].
  { eexists. apply random_params_run. }
  pose proof (random_params_ParameterMatrix _ _ _ _ Hrun) as Hpm.
  rewrite <- chain_length in Hpm.
  apply build_circuit_matrix in Hpm
    as (p0 & p1 & p2 & p3 & p4 & p5 & Hparams & _ & Hc); [|apply chain_NoDup].
  eexists _, _. split; [exact Hrun|]. split; [exact Hc|].
  unfold main. change (range NSTEPS) with [0]. cbn [for_each].
  fold (chain nqubits).
  erewrite IO_bind_Ok; [reflexivity|].
  erewrite IO_bind_Ok; [|exact Hrun].
  erewrite IO_bind_Ok; [|unfold lift; rewrite Hc; reflexivity].
  do 3 (erewrite IO_bind_Ok; [|reflexivity]).
  erewrite IO_bind_Ok; [|reflexivity].
  unfold print, emit, timestep_events. simpl.
  by rewrite <- !app_assoc.
Qed.

(** With [NSTEPS = 1] every run of [main] performs one timestep: it draws
    [6N] floats and hands one circuit to the simulator, for every [nsteps]. *)
Lemma main_timesteps (nsteps nqubits : Z) (w : World) :
  ∃ w', main nsteps nqubits w = (Ok tt, w') ∧
        length (simulated w') = (length (simulated w) + Z.to_nat NSTEPS)%nat ∧
        length (draws w') =
          (length (draws w) + Z.to_nat NSTEPS * (6 * Z.to_nat nqubits))%nat.
Proof.
  destruct (main_run nsteps nqubits w) as (params & c & _ & _ & ->).
  eexists. split; [done|]. unfold simulated, draws. cbn [events].
  rewrite !omap_app.
  fold (simulated (after_draws w (6 * Z.to_nat nqubits))).
  fold (draws (after_draws w (6 * Z.to_nat nqubits))).
  rewrite simulated_after_draws, draws_after_draws.
  rewrite !length_app, delivered_length.
  change (Z.to_nat NSTEPS) with 1%nat. simpl.
  fold (simulated w). fold (draws w). lia.
Qed.

(** C3, at a failing input.  Asked for three timesteps on four qubits, [main]
    performs one: it hands exactly one circuit to the simulator and draws
    [6 * 4] floats.  The loop runs over [range(NSTEPS)], the global, and not
    over the argument [nsteps]. *)
Theorem main_three_timesteps_runs_one :
  ∃ w' c, main 3 4 alternating = (Ok tt, w') ∧
          simulated w' = [c] ∧ length (draws w') = 24%nat.
Proof. eexists _, _. split_and!; vm_compute; reflexivity. Qed.

(** The same with no timestep asked for: one is performed. *)
Lemma main_zero_timesteps_runs_one :
  ∃ w' c, main 0 4 alternating = (Ok tt, w') ∧ simulated w' = [c].
Proof. eexists _, _. split; vm_compute; reflexivity. Qed.

(* ================================================================== *)
(** * The store-level builder and the pure one *)

Lemma Py_bind_Ok {A B} (m : Py A) (f : A → Py B) (σ σ' : Store) (a : A) :
  m σ = (Ok a, σ') → (m ≫= f) σ = f a σ'.
Proof. intros Hm. unfold mbind, Py_bind. by rewrite Hm. Qed.

Lemma Py_bind_Raise {A B} (m : Py A) (f : A → Py B) (σ σ' : Store) (e : Exn) :
  m σ = (Raise e, σ') → (m ≫= f) σ = (Raise e, σ').
Proof. intros Hm. unfold mbind, Py_bind. by rewrite Hm. Qed.

Lemma append_run (circuit : positive) (cur : Circuit) (ops : list Operation)
    (σ : Store) :
  σ !! circuit = Some (ACircuit cur) →
  ByRef.append circuit ops σ =
  (Ok tt, <[circuit:=ACircuit (cirq.append cur ops)]> σ).
Proof. intros Hc. unfold ByRef.append. by rewrite Hc. Qed.

Lemma new_run (o : Obj) (σ : Store) :
  ∃ l, σ !! l = None ∧ ByRef.new o σ = (Ok l, <[l:=o]> σ).
Proof.
  exists (fresh (dom σ)). split; [|done].
  apply not_elem_of_dom, is_fresh.
Qed.

Lemma building_append (σ0 σ : Store) (circuit : positive)
    (cur cur' : Circuit) :
  building σ0 σ circuit cur →
  building σ0 (<[circuit:=ACircuit cur']> σ) circuit cur'.
Proof.
  intros (Hsub & Hnew & _). split_and!; [|done|apply lookup_insert_eq].
  by apply insert_subseteq_r.
Qed.

Section on_store.
Context (σ0 : Store) (qubits params : positive).
Context (qs : list Qubit) (ps : list (list float)).
Hypothesis Hqs : qubits_at σ0 qubits qs.
Hypothesis Hps : matrix_at σ0 params ps.

Lemma the_qubits_run (σ : Store) :
  σ0 ⊆ σ → ByRef.the_qubits qubits σ = (Ok qs, σ).
Proof.
  intros Hsub. unfold ByRef.the_qubits.
  by rewrite (lookup_weaken _ _ _ _ Hqs Hsub).
Qed.

(** Reading [params[k]]: the list the pure builder reads, or the same
    [IndexError]. *)
Lemma params_getitem_run (k : nat) (σ : Store) :
  σ0 ⊆ σ →
  (ls ← ByRef.the_lists params; l ← ByRef.pure (getitem ls k);
   ByRef.the_floats l) σ = (getitem ps k, σ).
Proof.
  intros Hsub. destruct Hps as (ls & Hls & Hall).
  erewrite Py_bind_Ok;
    [|unfold ByRef.the_lists; by rewrite (lookup_weaken _ _ _ _ Hls Hsub)].
  unfold getitem. destruct (ls !! k) as [l|] eqn:El.
  - destruct (Forall2_lookup_l _ _ _ _ _ Hall El) as (p & -> & Hl).
    erewrite Py_bind_Ok; [|reflexivity].
    unfold ByRef.the_floats. by rewrite (lookup_weaken _ _ _ _ Hl Hsub).
  - erewrite Py_bind_Raise; [|reflexivity].
    apply lookup_ge_None in El. rewrite (Forall2_length _ _ _ Hall) in El.
    apply lookup_ge_None in El. by rewrite El.
Qed.

Lemma gate_if_big_run (g : Qubit → Operation) (k : nat) (σ : Store) :
  σ0 ⊆ σ →
  ByRef.gate_if_big g qubits params k σ =
  (match getitem ps k with
   | Ok p => Ok (gate_if_big g qs p)
   | Raise e => Raise e
   end, σ).
Proof.
  intros Hsub. pose proof (params_getitem_run k σ Hsub) as Hrun.
  destruct Hps as (ls & Hls & Hall).
  assert (ByRef.the_lists params σ = (Ok ls, σ)) as Hlists.
  { unfold ByRef.the_lists. by rewrite (lookup_weaken _ _ _ _ Hls Hsub). }
  unfold ByRef.gate_if_big.
  rewrite (Py_bind_Ok _ _ _ _ _ Hlists) in Hrun.
  rewrite (Py_bind_Ok _ _ _ _ _ Hlists).
  destruct (getitem ls k) as [l|e] eqn:El.
  - rewrite (Py_bind_Ok (ByRef.pure (Ok l)) _ σ σ l eq_refl) in Hrun.
    rewrite (Py_bind_Ok (ByRef.pure (Ok l)) _ σ σ l eq_refl).
    rewrite (Py_bind_Ok _ _ _ _ _ (the_qubits_run σ Hsub)).
    destruct (getitem ps k) as [p|e].
    + by rewrite (Py_bind_Ok _ _ _ _ _ Hrun).
    + by rewrite (Py_bind_Raise _ _ _ _ _ Hrun).
  - rewrite (Py_bind_Raise (ByRef.pure (Raise e)) _ σ σ e eq_refl) in Hrun.
    rewrite (Py_bind_Raise (ByRef.pure (Raise e)) _ σ σ e eq_refl).
    by injection Hrun as <-.
Qed.

Lemma params_getitem_bind {B} (k : nat) (K : list float → Py B) (σ : Store) :
  σ0 ⊆ σ →
  (ls ← ByRef.the_lists params; l ← ByRef.pure (getitem ls k);
   p ← ByRef.the_floats l; K p) σ =
  match getitem ps k with
  | Ok p => K p σ
  | Raise e => (Raise e, σ)
  end.
Proof.
  intros Hsub. destruct Hps as (ls & Hls & Hall).
  assert (ByRef.the_lists params σ = (Ok ls, σ)) as Hlists.
  { unfold ByRef.the_lists. by rewrite (lookup_weaken _ _ _ _ Hls Hsub). }
  rewrite (Py_bind_Ok _ _ _ _ _ Hlists).
  unfold getitem. destruct (ls !! k) as [l|] eqn:El.
  - destruct (Forall2_lookup_l _ _ _ _ _ Hall El) as (p & -> & Hl).
    rewrite (Py_bind_Ok (ByRef.pure (Ok l)) _ σ σ l eq_refl).
    apply Py_bind_Ok.
    unfold ByRef.the_floats. by rewrite (lookup_weaken _ _ _ _ Hl Hsub).
  - rewrite (Py_bind_Raise (ByRef.pure (Raise IndexError)) _ σ σ _ eq_refl).
    apply lookup_ge_None in El. rewrite (Forall2_length _ _ _ Hall) in El.
    apply lookup_ge_None in El. by rewrite El.
Qed.

(** One phase: the generator, then [append]. *)
Lemma phase_run {B} (g : Qubit → Operation) (k : nat) (circuit : positive)
    (cur : Circuit) (K : Py B) (σ : Store) :
  building σ0 σ circuit cur →
  (ops ← ByRef.gate_if_big g qubits params k;
   _ ← ByRef.append circuit ops; K) σ =
  match getitem ps k with
  | Ok p => K (<[circuit:=ACircuit (cirq.append cur (gate_if_big g qs p))]> σ)
  | Raise e => (Raise e, σ)
  end.
Proof.
  intros (Hsub & Hnew & Hc).
  pose proof (gate_if_big_run g k σ Hsub) as Hrun.
  destruct (getitem ps k) as [p|e].
  - rewrite (Py_bind_Ok _ _ _ _ _ Hrun).
    by rewrite (Py_bind_Ok _ _ _ _ _ (append_run circuit cur _ σ Hc)).
  - by rewrite (Py_bind_Raise _ _ _ _ _ Hrun).
Qed.

(** The CNOT loop on the store does what the pure loop does, and leaves the
    objects of [σ0] where they were. *)
Lemma cnot_loop_store (circuit : positive) (it : list (nat * Qubit)) :
  ∀ (cur : Circuit) (σ : Store),
    building σ0 σ circuit cur →
    ∃ σ', match cnot_loop qs ps it cur with
          | Ok cur' =>
              ByRef.cnot_loop qubits params it circuit σ = (Ok tt, σ') ∧
              building σ0 σ' circuit cur'
          | Raise e =>
              ByRef.cnot_loop qubits params it circuit σ = (Raise e, σ') ∧
              σ0 ⊆ σ'
          end.
Proof.
  induction it as [|[qi q] it IH]; intros cur σ Hb.
  { exists σ. simpl. done. }
  pose proof Hb as (Hsub & Hnew & Hc).
  cbn [cnot_loop ByRef.cnot_loop].
  rewrite (params_getitem_bind 1 _ σ Hsub).
  destruct (getitem ps 1) as [p1|e1]; cbn [mbind Result_bind];
    [|by exists σ].
  destruct (getitem p1 qi) as [p|e2]; cbn [mbind Result_bind].
  2: { exists σ. split; [|done].
       by rewrite (Py_bind_Raise (ByRef.pure (Raise e2)) _ σ σ e2 eq_refl). }
  rewrite (Py_bind_Ok (ByRef.pure (Ok p)) _ σ σ p eq_refl).
  destruct (ge_half p).
  - destruct (getitem qs (qi + 1)) as [q'|e3] eqn:Eq'; cbn [mbind Result_bind].
    + destruct (cirq.CNOT_call q q') as [op|e4] eqn:Eop;
        cbn [mbind Result_bind].
      * erewrite Py_bind_Ok; cycle 1.
        { rewrite (Py_bind_Ok _ _ _ _ _ (the_qubits_run σ Hsub)). rewrite Eq'.
          rewrite (Py_bind_Ok (ByRef.pure (Ok q')) _ σ σ q' eq_refl).
          rewrite Eop.
          rewrite (Py_bind_Ok (ByRef.pure (Ok op)) _ σ σ op eq_refl).
          by apply append_run. }
        apply IH. by apply (building_append _ _ _ cur).
      * exists σ. split; [|done]. apply Py_bind_Raise.
        rewrite (Py_bind_Ok _ _ _ _ _ (the_qubits_run σ Hsub)). rewrite Eq'.
        rewrite (Py_bind_Ok (ByRef.pure (Ok q')) _ σ σ q' eq_refl).
        rewrite Eop.
        by rewrite (Py_bind_Raise (ByRef.pure (Raise e4)) _ σ σ e4 eq_refl).
    + exists σ. split; [|done]. apply Py_bind_Raise.
      rewrite (Py_bind_Ok _ _ _ _ _ (the_qubits_run σ Hsub)). rewrite Eq'.
      by rewrite (Py_bind_Raise (ByRef.pure (Raise e3)) _ σ σ e3 eq_refl).
  - erewrite Py_bind_Ok; [by apply IH|done].
Qed.

(** The store-level builder does what the pure builder does on the values
    of its arguments, returns a reference to a new object, and leaves every
    object of the store of the call where it was. *)
Lemma build_circuit_store :
  ∃ r σ', ByRef.build_circuit qubits params σ0 = (r, σ') ∧ σ0 ⊆ σ' ∧
    match build_circuit qs ps with
    | Ok c => ∃ l, r = Ok l ∧ σ0 !! l = None ∧ σ' !! l = Some (ACircuit c)
    | Raise e => r = Raise e
    end.
Proof.
  unfold ByRef.build_circuit, build_circuit.
  destruct (new_run (ACircuit cirq.Circuit_new) σ0) as (l & Hl & Hnew).
  rewrite (Py_bind_Ok _ _ _ _ _ Hnew).
  assert (building σ0 (<[l:=ACircuit cirq.Circuit_new]> σ0) l
            cirq.Circuit_new) as Hb.
  { split_and!; [by apply insert_subseteq | done | apply lookup_insert_eq]. }
  rewrite (phase_run _ 0 l cirq.Circuit_new _ _ Hb).
  destruct (getitem ps 0) as [p0|e0]; cbn [mbind Result_bind].
  2: { eexists _, _. split; [done|]. split; [apply Hb | done]. }
  apply (building_append _ _ _ _
           (cirq.append cirq.Circuit_new (gate_if_big cirq.reset qs p0))) in Hb.
  rewrite (Py_bind_Ok _ _ _ _ _ (the_qubits_run _ (proj1 Hb))).
  match goal with |- context [ByRef.new ?o ≫= _] =>
    destruct Hb as (Hsub & _ & Hc);
    match goal with |- context [(_ ≫= _) ?σ] =>
      destruct (new_run o σ) as (h & Hh & Hnew2);
      assert (building σ0 (<[h:=o]> σ) l
                (cirq.append cirq.Circuit_new (gate_if_big cirq.reset qs p0)))
        as Hb
    end
  end.
  { split_and!; [|done|].
    - apply insert_subseteq_r; [|done]. by eapply lookup_weaken_None.
    - rewrite lookup_insert_ne; [done|]. intros ->. congruence. }
  rewrite (Py_bind_Ok _ _ _ _ _ Hnew2).
  erewrite Py_bind_Ok;
    [|unfold ByRef.the_qubits; by rewrite lookup_insert_eq].
  destruct (cnot_loop_store l (enumerate (removelast qs)) _ _ Hb)
    as [σ4 Hloop].
  clear Hb Hnew2 Hh Hc Hsub Hnew.
  destruct (cnot_loop qs ps _ _) as [c1|e1]; cbn [mbind Result_bind].
  2: { destruct Hloop as [Hloop Hsub].
       rewrite (Py_bind_Raise _ _ _ _ _ Hloop). by eexists _, _. }
  destruct Hloop as [Hloop Hb]. rewrite (Py_bind_Ok _ _ _ _ _ Hloop).
  rewrite (phase_run _ 2 l c1 _ _ Hb).
  destruct (getitem ps 2) as [p2|e2]; cbn [mbind Result_bind].
  2: { eexists _, _. split; [done|]. split; [apply Hb | done]. }
  apply (building_append _ _ _ _
           (cirq.append c1 (gate_if_big cirq.H qs p2))) in Hb.
  rewrite (phase_run _ 3 l _ _ _ Hb).
  destruct (getitem ps 3) as [p3|e3]; cbn [mbind Result_bind].
  2: { eexists _, _. split; [done|]. split; [apply Hb | done]. }
  apply (building_append _ _ _ _
           (cirq.append (cirq.append c1 (gate_if_big cirq.H qs p2))
              (gate_if_big cirq.S qs p3))) in Hb.
  rewrite (phase_run _ 4 l _ _ _ Hb).
  destruct (getitem ps 4) as [p4|e4]; cbn [mbind Result_bind].
  2: { eexists _, _. split; [done|]. split; [apply Hb | done]. }
  apply (building_append _ _ _ _
           (cirq.append
              (cirq.append (cirq.append c1 (gate_if_big cirq.H qs p2))
                 (gate_if_big cirq.S qs p3))
              (gate_if_big cirq.T qs p4))) in Hb.
  rewrite (phase_run _ 5 l _ _ _ Hb).
  destruct (getitem ps 5) as [p5|e5]; cbn [mbind Result_bind].
  2: { eexists _, _. split; [done|]. split; [apply Hb | done]. }
  apply (building_append _ _ _ _
           (cirq.append
              (cirq.append
                 (cirq.append (cirq.append c1 (gate_if_big cirq.H qs p2))
                    (gate_if_big cirq.S qs p3))
                 (gate_if_big cirq.T qs p4))
              (gate_if_big cirq.measure qs p5))) in Hb.
  destruct Hb as (Hsub & Hnew & Hc).
  eexists _, _. split; [done|]. split; [done|]. by exists l.
Qed.

End on_store.

Lemma qubits_at_mono (σ σ' : Store) (qubits : positive) (qs : list Qubit) :
  σ ⊆ σ' → qubits_at σ qubits qs → qubits_at σ' qubits qs.
Proof. intros Hsub Hq. by apply (lookup_weaken σ). Qed.

Lemma matrix_at_mono (σ σ' : Store) (params : positive)
    (ps : list (list float)) :
  σ ⊆ σ' → matrix_at σ params ps → matrix_at σ' params ps.
Proof.
  intros Hsub (ls & Hls & Hall). exists ls. split; [by apply (lookup_weaken σ)|].
  eapply Forall2_impl; [exact Hall|]. intros l p Hl. by apply (lookup_weaken σ).
Qed.

(** What the store-level builder returns is what the pure builder returns on
    the values of the arguments. *)
Lemma returned_build_circuit (σ : Store) (qubits params : positive)
    (qs : list Qubit) (ps : list (list float)) :
  qubits_at σ qubits qs → matrix_at σ params ps →
  returned (ByRef.build_circuit qubits params σ) = build_circuit qs ps.
Proof.
  intros Hqs Hps.
  destruct (build_circuit_store σ qubits params qs ps Hqs Hps)
    as (r & σ' & -> & _ & Hr).
  unfold returned. simpl.
  destruct (build_circuit qs ps) as [c|e]; [|by subst r].
  destruct Hr as (l & -> & _ & ->). done.
Qed.

(** C10.  The builder does not change its arguments.  In a store that holds
    a qubit list and a matrix (any list of lists of floats, of any shape),
    after the call, whether it returned or raised, the qubit list, the list
    of parameter lists and every parameter list hold the values they held
    before, as does every other object of the store; the circuit returned is
    a new object. *)
Theorem build_circuit_keeps_arguments (σ : Store) (qubits params : positive)
    (qs : list Qubit) (ps : list (list float)) :
  qubits_at σ qubits qs → matrix_at σ params ps →
  ∃ r σ', ByRef.build_circuit qubits params σ = (r, σ') ∧
          qubits_at σ' qubits qs ∧ matrix_at σ' params ps ∧
          σ ⊆ σ' ∧
          (∀ l, r = Ok l → σ !! l = None).
Proof.
  intros Hqs Hps.
  destruct (build_circuit_store σ qubits params qs ps Hqs Hps)
    as (r & σ' & Hrun & Hsub & Hr).
  exists r, σ'. split_and!; [done|by eapply qubits_at_mono
                            |by eapply matrix_at_mono|done|].
  intros l ->. destruct (build_circuit qs ps); [|done].
  by destruct Hr as (l' & [= <-] & ? & _).
Qed.

Lemma build_circuit_keeps_arguments_witness :
  ∃ r σ', ByRef.build_circuit 1 2 shared_lists = (r, σ') ∧
          qubits_at σ' 1 (chain 2) ∧
          matrix_at σ' 2
            [[1; 0.25]; [0.5; 1]; [1; 0.25]; [1; 0.25]; [0.5; 1]; [1; 0.25]]%float ∧
          shared_lists ⊆ σ' ∧
          (∀ l, r = Ok l → shared_lists !! l = None).
Proof.
  apply build_circuit_keeps_arguments.
  - reflexivity.
  - exists [3; 4; 3; 3; 4; 3]%positive. split; [reflexivity|].
    repeat constructor.
Defined.

(** C8.  The builder is deterministic.  Two calls whose arguments hold the
    same qubit sequence and the same matrix return identical circuits,
    whatever else the two stores hold and wherever the arguments are kept:
    what is returned is a function of the two values, the one the pure
    [build_circuit] computes.  In particular a second call on the same
    arguments, made after the first, returns the same circuit again. *)
Theorem build_circuit_deterministic (σ1 σ2 : Store)
    (qubits1 params1 qubits2 params2 : positive)
    (qs : list Qubit) (ps : list (list float)) :
  qubits_at σ1 qubits1 qs → matrix_at σ1 params1 ps →
  qubits_at σ2 qubits2 qs → matrix_at σ2 params2 ps →
  returned (ByRef.build_circuit qubits1 params1 σ1)
  = returned (ByRef.build_circuit qubits2 params2 σ2) ∧
  returned (ByRef.build_circuit qubits1 params1 σ1) = build_circuit qs ps ∧
  returned (ByRef.build_circuit qubits1 params1
              (ByRef.build_circuit qubits1 params1 σ1).2)
  = returned (ByRef.build_circuit qubits1 params1 σ1).
Proof.
  intros Hq1 Hp1 Hq2 Hp2.
  rewrite (returned_build_circuit σ1 _ _ qs ps Hq1 Hp1).
  rewrite (returned_build_circuit σ2 _ _ qs ps Hq2 Hp2).
  split_and!; [done..|].
  destruct (build_circuit_store σ1 qubits1 params1 qs ps Hq1 Hp1)
    as (r & σ' & -> & Hsub & _).
  apply returned_build_circuit; simpl.
  - by eapply qubits_at_mono.
  - by eapply matrix_at_mono.
Qed.

Lemma build_circuit_deterministic_witness :
  returned (ByRef.build_circuit 1 2 shared_lists)
  = returned (ByRef.build_circuit 7 9
       (<[7%positive := Qubits (chain 2)]>
        (<[9%positive := Lists [3; 4; 3; 3; 4; 3]%positive]>
         (<[5%positive := Floats [0; 0; 0]%float]> shared_lists)))) ∧
  returned (ByRef.build_circuit 1 2 shared_lists)
  = build_circuit (chain 2)
      [[1; 0.25]; [0.5; 1]; [1; 0.25]; [1; 0.25]; [0.5; 1]; [1; 0.25]]%float ∧
  returned (ByRef.build_circuit 1 2
              (ByRef.build_circuit 1 2 shared_lists).2)
  = returned (ByRef.build_circuit 1 2 shared_lists).
Proof.
  apply build_circuit_deterministic.
  - reflexivity.
  - exists [3; 4; 3; 3; 4; 3]%positive. split; [reflexivity|].
    repeat constructor.
  - reflexivity.
  - exists [3; 4; 3; 3; 4; 3]%positive. split; [reflexivity|].
    repeat constructor.
Defined.

(* ================================================================== *)
(* ================================================================== *)
(** * Further properties of build_circuit *)

Lemma phases_sublist_full (qubits : list Qubit)
    (p0 p1 p2 p3 p4 p5 : list float) :
  phases qubits p0 p1 p2 p3 p4 p5 `sublist_of` full_circuit qubits.
Proof.
  unfold phases, full_circuit. repeat apply sublist_app;
    apply gate_if_big_sublist.
Qed.

Lemma on_qubit_mono (q : Qubit) (ops ops' : list Operation) :
  ops `sublist_of` ops' → on_qubit q ops `sublist_of` on_qubit q ops'.
Proof.
  unfold on_qubit. induction 1 as [|o l l' _ IH|o l l' _ IH]; simpl; [done|..];
    destruct (cirq.qubit_in q (cirq.qubits o));
    [by apply sublist_skip|done|by apply sublist_cons|done].
Qed.

(** X1.  Whatever the parameters, the operations [build_circuit] hands to
    the circuit are a subsequence of the full sequence (every Reset, every
    CNOT of two neighbours, every H, S, T and Measure, in that order).  The
    circuit returned holds these operations and no other, [5N + (N-1)] at
    most, and on every qubit they are a subsequence of the operations of the
    full sequence on that qubit: the builder invents no operation. *)
Theorem circuit_within_full (qubits : list Qubit)
    (params : list (list float)) (c : Circuit) :
  build_circuit qubits params = Ok c →
  (∃ ops, c = cirq.append cirq.Circuit_new ops ∧
          ops `sublist_of` full_circuit qubits) ∧
  cirq.all_operations c ⊆+ full_circuit qubits ∧
  (length (cirq.all_operations c)
   ≤ 5 * length qubits + (length qubits - 1))%nat ∧
  (∀ q, on_qubit q (cirq.all_operations c)
        `sublist_of` on_qubit q (full_circuit qubits)).
Proof.
  intros (p0 & p1 & p2 & p3 & p4 & p5 & more & _ & _ & _ & ->)
    %build_circuit_Ok_inv.
  pose proof (phases_sublist_full qubits p0 p1 p2 p3 p4 p5) as Hsub.
  assert (cirq.all_operations
            (cirq.append cirq.Circuit_new (phases qubits p0 p1 p2 p3 p4 p5))
          ⊆+ full_circuit qubits) as Hms.
  { rewrite new_circuit_ops. by apply sublist_submseteq. }
  split_and!; [by eexists|done| |].
  - rewrite <- full_circuit_length. by apply submseteq_length.
  - intros q. rewrite new_circuit_on_qubit. by apply on_qubit_mono.
Qed.

Lemma circuit_within_full_witness :
  let qubits := [LineQubit 0; LineQubit 1] in
  let c := [[cirq.reset (LineQubit 0); cirq.reset (LineQubit 1)];
            [cirq.CNOT (LineQubit 0) (LineQubit 1)];
            [cirq.H (LineQubit 0)]] in
  (∃ ops, c = cirq.append cirq.Circuit_new ops ∧
          ops `sublist_of` full_circuit qubits) ∧
  cirq.all_operations c ⊆+ full_circuit qubits ∧
  (length (cirq.all_operations c)
   ≤ 5 * length qubits + (length qubits - 1))%nat ∧
  (∀ q, on_qubit q (cirq.all_operations c)
        `sublist_of` on_qubit q (full_circuit qubits)).
Proof.
  apply (circuit_within_full [LineQubit 0; LineQubit 1]
           [[1; 1; 1]; [1]; [1]; []; [0; 0]; [0; 0]]%float).
  reflexivity.
Defined.

Lemma phase_all_phase (ph : Phase) (qubits : list Qubit) :
  Forall (λ o, phase_of o = ph) (phase_all ph qubits).
Proof. destruct ph; simpl; apply Forall_fmap, Forall_forall; by intros. Qed.

Lemma phase_all_NoDup (ph : Phase) (qubits : list Qubit) :
  NoDup qubits → NoDup (phase_all ph qubits).
Proof.
  intros Hnd. destruct ph; simpl;
    try (apply NoDup_fmap_2_strong; [|done]; by intros a b _ _ [= ->]).
  apply NoDup_fmap_2_strong; [|by apply neighbours_NoDup].
  intros [a b] [a' b'] _ _ [= -> ->]. done.
Qed.

Lemma full_circuit_NoDup (qubits : list Qubit) :
  NoDup qubits → NoDup (full_circuit qubits).
Proof.
  intros Hnd. unfold full_circuit.
  repeat (apply NoDup_app; split_and!; [by apply phase_all_NoDup| |]);
    [..|by apply phase_all_NoDup];
    intros o Ho Hin; rewrite ?elem_of_app in Hin;
    repeat match goal with
    | H : _ ∈ phase_all ?ph qubits |- _ =>
        apply (proj1 (Forall_forall _ _) (phase_all_phase ph qubits)) in H
    | H : _ ∨ _ |- _ => destruct H
    end; congruence.
Qed.

Lemma phases_NoDup (qubits : list Qubit) (p0 p1 p2 p3 p4 p5 : list float) :
  NoDup qubits → NoDup (phases qubits p0 p1 p2 p3 p4 p5).
Proof.
  intros Hnd. eapply sublist_NoDup; [by apply full_circuit_NoDup|].
  apply phases_sublist_full.
Qed.

(** X2.  With distinct qubits the built circuit holds no operation twice:
    each qubit gets at most one Reset, one H, one S, one T and one Measure,
    and each pair of neighbours at most one CNOT. *)
Theorem circuit_NoDup (qubits : list Qubit) (params : list (list float))
    (c : Circuit) :
  NoDup qubits → build_circuit qubits params = Ok c →
  NoDup (cirq.all_operations c).
Proof.
  intros Hnd (p0 & p1 & p2 & p3 & p4 & p5 & more & _ & _ & _ & ->)
    %build_circuit_Ok_inv.
  rewrite new_circuit_ops. by apply phases_NoDup.
Qed.

Lemma circuit_NoDup_witness :
  NoDup (cirq.all_operations
           [[cirq.reset (LineQubit 0); cirq.reset (LineQubit 1);
             cirq.reset (LineQubit 2)];
            [cirq.CNOT (LineQubit 0) (LineQubit 1)];
            [cirq.CNOT (LineQubit 1) (LineQubit 2)];
            [cirq.T (LineQubit 2)]]).
Proof.
  apply (circuit_NoDup (chain 3)
           [[1; 1; 1]; [1; 1; 1]; [0; 0; 0]; [0; 0; 0]; [0; 0; 1]; [0; 0; 0]]%float).
  - apply chain_NoDup.
  - reflexivity.
Defined.

Lemma gate_if_big_length {A} (g : A → Operation) (xs : list A)
    (ps : list float) :
  length (gate_if_big g xs ps) = big_among (length xs) ps.
Proof.
  unfold big_among. revert ps. induction xs as [|x xs IH]; intros [|p ps];
    rewrite ?gate_if_big_nil_r; try done.
  rewrite gate_if_big_cons. cbn [length take List.filter].
  destruct (ge_half p); cbn [length]; by rewrite IH.
Qed.

(** X3.  The size of the built circuit is the number of big entries that are
    read: those among the first [N] entries of the Reset, H, S, T and Measure
    lists and among the first [N-1] entries of the CNOT list; phase by phase,
    the number of operations of a phase is the number of its big entries. *)
Theorem circuit_length (qubits : list Qubit)
    (p0 p1 p2 p3 p4 p5 : list float) (more : list (list float))
    (c : Circuit) :
  build_circuit qubits (p0 :: p1 :: p2 :: p3 :: p4 :: p5 :: more) = Ok c →
  let N := length qubits in
  length (of_phase Reset (cirq.all_operations c)) = big_among N p0 ∧
  length (of_phase ApplyCNOT (cirq.all_operations c)) = big_among (N - 1) p1 ∧
  length (of_phase ApplyH (cirq.all_operations c)) = big_among N p2 ∧
  length (of_phase ApplyS (cirq.all_operations c)) = big_among N p3 ∧
  length (of_phase ApplyT (cirq.all_operations c)) = big_among N p4 ∧
  length (of_phase Measure (cirq.all_operations c)) = big_among N p5 ∧
  length (cirq.all_operations c)
  = (big_among N p0 + big_among (N - 1) p1 + big_among N p2 +
     big_among N p3 + big_among N p4 + big_among N p5)%nat.
Proof.
  intros (q0 & q1 & q2 & q3 & q4 & q5 & more' & [= <- <- <- <- <- <- _] & _
          & _ & ->)%build_circuit_Ok_inv N.
  rewrite !(of_phase_Permutation _ _ _ (new_circuit_ops _)), new_circuit_ops.
  rewrite !of_phase_phases. unfold phases.
  rewrite !length_app, !gate_if_big_length, neighbours_length.
  subst N. split_and!; try done. lia.
Qed.

Lemma circuit_length_witness :
  let c := [[cirq.reset (LineQubit 0); cirq.reset (LineQubit 1)];
            [cirq.CNOT (LineQubit 0) (LineQubit 1)];
            [cirq.H (LineQubit 0)]] in
  let N := length [LineQubit 0; LineQubit 1] in
  length (of_phase Reset (cirq.all_operations c)) = big_among N [1; 1; 1]%float ∧
  length (of_phase ApplyCNOT (cirq.all_operations c))
  = big_among (N - 1) [1]%float ∧
  length (of_phase ApplyH (cirq.all_operations c)) = big_among N [1]%float ∧
  length (of_phase ApplyS (cirq.all_operations c)) = big_among N [] ∧
  length (of_phase ApplyT (cirq.all_operations c)) = big_among N [0; 0]%float ∧
  length (of_phase Measure (cirq.all_operations c)) = big_among N [0; 0]%float ∧
  length (cirq.all_operations c)
  = (big_among N [1; 1; 1]%float + big_among (N - 1) [1]%float +
     big_among N [1]%float + big_among N [] +
     big_among N [0; 0]%float + big_among N [0; 0]%float)%nat.
Proof.
  apply (circuit_length [LineQubit 0; LineQubit 1]
           [1; 1; 1]%float [1]%float [1]%float [] [0; 0]%float [0; 0]%float []).
  reflexivity.
Defined.

Lemma gate_if_big_take {A} (g : A → Operation) (xs : list A)
    (ps : list float) (n : nat) :
  (length xs ≤ n)%nat →
  gate_if_big g xs (take n ps) = gate_if_big g xs ps.
Proof.
  revert ps n. induction xs as [|x xs IH]; intros ps n Hn; [done|].
  destruct n as [|n]; [simpl in Hn; lia|].
  destruct ps as [|p ps]; [done|].
  cbn [take]. rewrite !gate_if_big_cons.
  by rewrite IH by (simpl in Hn; lia).
Qed.

Lemma selected_pairs_take (qubits : list Qubit) (ps : list float) (n : nat) :
  (length qubits - 1 ≤ n)%nat →
  selected_pairs qubits (take n ps) = selected_pairs qubits ps.
Proof.
  intros Hn. unfold selected_pairs.
  by rewrite (zip_with_take_r' pair n (neighbours qubits) ps)
    by (rewrite neighbours_length; lia).
Qed.

(** The builder's result depends on the CNOT list through its first [N-1]
    entries only. *)
Lemma build_circuit_CNOT_take (qubits : list Qubit) (p0 p1 p1' : list float)
    (rest : list (list float)) :
  take (length qubits - 1) p1' = take (length qubits - 1) p1 →
  build_circuit qubits (p0 :: p1' :: rest) =
  build_circuit qubits (p0 :: p1 :: rest).
Proof.
  intros Htake. rewrite !build_circuit_outcome. unfold outcome.
  assert (length (take (length qubits - 1) p1')
          = length (take (length qubits - 1) p1)) as Hlen by by rewrite Htake.
  rewrite !length_take in Hlen.
  assert (self_CNOT qubits p1' = self_CNOT qubits p1) as ->.
  { unfold self_CNOT.
    rewrite <- (selected_pairs_take qubits p1' (length qubits - 1)) by lia.
    rewrite <- (selected_pairs_take qubits p1 (length qubits - 1)) by lia.
    by rewrite Htake. }
  destruct (self_CNOT qubits p1); [done|].
  repeat case_decide; try done; try lia.
  destruct rest as [|p2 [|p3 [|p4 [|p5 more]]]]; try done.
  do 2 f_equal. unfold phases. do 2 f_equal.
  rewrite <- (gate_if_big_take _ _ p1 (length qubits - 1))
    by (rewrite neighbours_length; lia).
  rewrite <- (gate_if_big_take _ _ p1' (length qubits - 1))
    by (rewrite neighbours_length; lia).
  by rewrite Htake.
Qed.

(** X4.  The entries of the CNOT list from index [N-1] on are never read:
    replacing [params[1]] by a list with the same first [N-1] entries changes
    neither the circuit returned nor the exception raised.  In particular
    the entry of the last qubit, which [random_params] draws, has no
    effect. *)
Theorem CNOT_tail_unread (qubits : list Qubit) (params : list (list float))
    (p1 p1' : list float) :
  params !! 1%nat = Some p1 →
  take (length qubits - 1) p1' = take (length qubits - 1) p1 →
  build_circuit qubits (<[1%nat:=p1']> params) = build_circuit qubits params.
Proof.
  intros Hp1 Htake.
  destruct params as [|p0 [|p1_ rest]]; try done.
  injection Hp1 as ->. cbn [insert list_insert].
  by apply build_circuit_CNOT_take.
Qed.

Lemma CNOT_tail_unread_witness :
  build_circuit (chain 3)
    (<[1%nat:=[1; 0.75]%float]>
       [[1; 0; 1]; [1; 0.75; 0.25]; [1; 1; 0]; [0; 0; 0]; [0; 0; 1]; [1; 1; 1]]%float)
  = build_circuit (chain 3)
      [[1; 0; 1]; [1; 0.75; 0.25]; [1; 1; 0]; [0; 0; 0]; [0; 0; 1]; [1; 1; 1]]%float.
Proof.
  apply (CNOT_tail_unread (chain 3) _ [1; 0.75; 0.25]%float); reflexivity.
Defined.

(** X5.  Open boundary: with distinct qubits the CNOTs of the built circuit
    form a chain.  The first qubit is never a target (nothing wraps around
    from the last qubit to the first), a qubit is the control of at most one
    CNOT and the target of at most one, and control and target differ. *)
Theorem CNOT_open_chain (qubits : list Qubit) (params : list (list float))
    (c : Circuit) :
  NoDup qubits → build_circuit qubits params = Ok c →
  (∀ a b, cirq.CNOT a b ∈ cirq.all_operations c →
          qubits !! 0%nat ≠ Some b ∧ a ≠ b) ∧
  (∀ a b b', cirq.CNOT a b ∈ cirq.all_operations c →
             cirq.CNOT a b' ∈ cirq.all_operations c → b = b') ∧
  (∀ a a' b, cirq.CNOT a b ∈ cirq.all_operations c →
             cirq.CNOT a' b ∈ cirq.all_operations c → a = a').
Proof.
  intros Hnd (p0 & p1 & p2 & p3 & p4 & p5 & more & _ & _ & _ & ->)
    %build_circuit_Ok_inv.
  split_and!.
  - intros a b (i & _ & Ha & Hb)%of_new_circuit%CNOT_range. split.
    + intros H0. pose proof (NoDup_lookup _ _ _ _ Hnd Hb H0). lia.
    + intros ->. pose proof (NoDup_lookup _ _ _ _ Hnd Ha Hb). lia.
  - intros a b b' (i & _ & Ha & Hb)%of_new_circuit%CNOT_range
      (j & _ & Ha' & Hb')%of_new_circuit%CNOT_range.
    pose proof (NoDup_lookup _ _ _ _ Hnd Ha Ha') as ->. congruence.
  - intros a a' b (i & _ & Ha & Hb)%of_new_circuit%CNOT_range
      (j & _ & Ha' & Hb')%of_new_circuit%CNOT_range.
    pose proof (NoDup_lookup _ _ _ _ Hnd Hb Hb') as Hij.
    assert (i = j) as -> by lia. congruence.
Qed.

Lemma CNOT_open_chain_witness :
  let c := [[cirq.reset (LineQubit 0); cirq.reset (LineQubit 1);
             cirq.reset (LineQubit 2)];
            [cirq.CNOT (LineQubit 0) (LineQubit 1)];
            [cirq.CNOT (LineQubit 1) (LineQubit 2)];
            [cirq.T (LineQubit 2)]] in
  (∀ a b, cirq.CNOT a b ∈ cirq.all_operations c →
          chain 3 !! 0%nat ≠ Some b ∧ a ≠ b) ∧
  (∀ a b b', cirq.CNOT a b ∈ cirq.all_operations c →
             cirq.CNOT a b' ∈ cirq.all_operations c → b = b') ∧
  (∀ a a' b, cirq.CNOT a b ∈ cirq.all_operations c →
             cirq.CNOT a' b ∈ cirq.all_operations c → a = a').
Proof.
  apply (CNOT_open_chain (chain 3)
           [[1; 1; 1]; [1; 1; 1]; [0; 0; 0]; [0; 0; 0]; [0; 0; 1]; [0; 0; 0]]%float).
  - apply chain_NoDup.
  - reflexivity.
Defined.

Lemma on_qubit_sorted (q : Qubit) (qubits : list Qubit)
    (p0 p1 p2 p3 p4 p5 : list float) :
  StronglySorted phase_le (on_qubit q (phases qubits p0 p1 p2 p3 p4 p5)).
Proof.
  eapply StronglySorted_sublist; [apply on_qubit_sublist|].
  apply phases_sorted.
Qed.

Lemma on_qubit_NoDup (q : Qubit) (qubits : list Qubit)
    (p0 p1 p2 p3 p4 p5 : list float) :
  NoDup qubits → NoDup (on_qubit q (phases qubits p0 p1 p2 p3 p4 p5)).
Proof.
  intros Hnd. eapply sublist_NoDup; [by apply phases_NoDup|].
  apply on_qubit_sublist.
Qed.

Lemma on_qubit_middle (q : Qubit) (o : Operation) (l1 l2 : list Operation) :
  q ∈ cirq.qubits o →
  on_qubit q (l1 ++ o :: l2) = on_qubit q l1 ++ o :: on_qubit q l2.
Proof.
  intros Hq%qubit_in_spec. rewrite on_qubit_app. f_equal.
  unfold on_qubit. simpl. by rewrite Hq.
Qed.

(** X6.  Measurement closes a timestep and Reset opens it, qubit by qubit:
    with distinct qubits, in the operation sequence of the built circuit no
    operation after [Measure(q)] is on qubit [q], and no operation before
    [Reset(q)] is on qubit [q].  No qubit is touched after it is measured or
    before it is reset. *)
Theorem measure_last_reset_first (qubits : list Qubit)
    (params : list (list float)) (c : Circuit) :
  NoDup qubits →
  build_circuit qubits params = Ok c →
  (∀ l1 l2 q, cirq.all_operations c = l1 ++ cirq.measure q :: l2 →
     Forall (λ o, q ∉ cirq.qubits o) l2) ∧
  (∀ l1 l2 q, cirq.all_operations c = l1 ++ cirq.reset q :: l2 →
     Forall (λ o, q ∉ cirq.qubits o) l1).
Proof.
  intros Hnd (p0 & p1 & p2 & p3 & p4 & p5 & more & _ & _ & _ & ->)
    %build_circuit_Ok_inv.
  split.
  - intros l1 l2 q Hsplit.
    pose proof (on_qubit_sorted q qubits p0 p1 p2 p3 p4 p5) as Hsorted.
    pose proof (on_qubit_NoDup q qubits p0 p1 p2 p3 p4 p5 Hnd) as Hnodup.
    rewrite <- new_circuit_on_qubit, Hsplit in Hsorted, Hnodup.
    rewrite on_qubit_middle in Hsorted, Hnodup by (simpl; set_solver).
    apply StronglySorted_app in Hsorted
      as (_ & _ & [Hall _]%StronglySorted_cons).
    apply NoDup_app in Hnodup as (_ & _ & [Hnotin _]%NoDup_cons).
    apply Forall_forall. intros o Ho Hq.
    assert (o ∈ on_qubit q l2) as Hon by by apply on_qubit_elem_of.
    rewrite Forall_forall in Hall. specialize (Hall o Hon).
    unfold phase_le in Hall. simpl in Hall.
    destruct o as [q'|? ?|q'|q'|q'|q']; simpl in Hall; try lia.
    simpl in Hq. apply list_elem_of_singleton in Hq as ->. done.
  - intros l1 l2 q Hsplit.
    pose proof (on_qubit_sorted q qubits p0 p1 p2 p3 p4 p5) as Hsorted.
    pose proof (on_qubit_NoDup q qubits p0 p1 p2 p3 p4 p5 Hnd) as Hnodup.
    rewrite <- new_circuit_on_qubit, Hsplit in Hsorted, Hnodup.
    rewrite on_qubit_middle in Hsorted, Hnodup by (simpl; set_solver).
    apply StronglySorted_app in Hsorted as (Hcross & _ & _).
    apply NoDup_app in Hnodup as (_ & Hdisj & _).
    apply Forall_forall. intros o Ho Hq.
    assert (o ∈ on_qubit q l1) as Hon by by apply on_qubit_elem_of.
    specialize (Hcross o (cirq.reset q) Hon ltac:(by left)).
    unfold phase_le in Hcross. simpl in Hcross.
    destruct o as [q'|? ?|q'|q'|q'|q']; simpl in Hcross; try lia.
    simpl in Hq. apply list_elem_of_singleton in Hq as ->.
    apply (Hdisj _ Hon). by left.
Qed.

Lemma measure_last_reset_first_witness :
  let c := [[cirq.reset (LineQubit 0); cirq.reset (LineQubit 1)];
            [cirq.CNOT (LineQubit 0) (LineQubit 1)];
            [cirq.H (LineQubit 0); cirq.measure (LineQubit 1)];
            [cirq.measure (LineQubit 0)]] in
  (∀ l1 l2 q, cirq.all_operations c = l1 ++ cirq.measure q :: l2 →
     Forall (λ o, q ∉ cirq.qubits o) l2) ∧
  (∀ l1 l2 q, cirq.all_operations c = l1 ++ cirq.reset q :: l2 →
     Forall (λ o, q ∉ cirq.qubits o) l1).
Proof.
  apply (measure_last_reset_first (chain 2)
           [[1; 1]; [1; 0]; [1; 0]; [0; 0]; [0; 0]; [1; 1]]%float).
  - apply chain_NoDup.
  - reflexivity.
Defined.

(* ================================================================== *)
(** * Further properties of random_params and main *)

Lemma random_params_concat (nqubits : Z) (w w' : World)
    (params : list (list float)) :
  random_params nqubits w = (Ok params, w') →
  concat params = delivered w (drawn w) (6 * Z.to_nat nqubits) ∧
  w' = after_draws w (6 * Z.to_nat nqubits).
Proof.
  rewrite random_params_run. intros [= <- <-]. split; [|done].
  cbn [concat]. rewrite app_nil_r.
  rewrite (delivered_app w (drawn w + 4 * Z.to_nat nqubits)) by lia.
  rewrite (delivered_app w (drawn w + 3 * Z.to_nat nqubits)) by lia.
  rewrite (delivered_app w (drawn w + 2 * Z.to_nat nqubits)) by lia.
  rewrite (delivered_app w (drawn w + Z.to_nat nqubits)) by lia.
  rewrite (delivered_app w (drawn w)) by lia. f_equal; lia.
Qed.

(** X7.  The sampler and the builder fit: for every [nqubits], also zero or
    negative, and every random source, whatever floats it delivers, the
    matrix [random_params(nqubits)] returns is one that [build_circuit]
    accepts for the chain of [nqubits] qubits.  No [IndexError] is raised. *)
Theorem sampler_feeds_builder (nqubits : Z) (w : World) :
  ∃ params w' c,
    random_params nqubits w = (Ok params, w') ∧
    ParameterMatrix (length (chain nqubits)) params ∧
    build_circuit (chain nqubits) params = Ok c.
Proof.
  assert (∃ params, random_params nqubits w =
            (Ok params, after_draws w (6 * Z.to_nat nqubits))) as [params Hrun].
  { eexists. apply random_params_run. }
  pose proof (random_params_ParameterMatrix _ _ _ _ Hrun) as Hpm.
  rewrite <- chain_length in Hpm.
  destruct (build_circuit_matrix _ _ (chain_NoDup nqubits) Hpm)
    as (p0 & p1 & p2 & p3 & p4 & p5 & _ & _ & Hc).
  by eexists _, _, _.
Qed.

(** X8.  A run of [main] raises nothing and does, in this order: [6N] draws
    from the random source; the banner, ["t = ", 0] and the circuit printed;
    the circuit handed to the simulator with all [N] qubits of the chain as
    qubit order; the result printed.  The circuit printed is the circuit
    simulated, the one built from the six lists that the [6N] draws make. *)
Theorem main_trace (nsteps nqubits : Z) (w : World) :
  ∃ params c w',
    main nsteps nqubits w = (Ok tt, w') ∧
    concat params = delivered w (drawn w) (6 * Z.to_nat nqubits) ∧
    ParameterMatrix (Z.to_nat nqubits) params ∧
    build_circuit (chain nqubits) params = Ok c ∧
    source w' = source w ∧
    drawn w' = (drawn w + 6 * Z.to_nat nqubits)%nat ∧
    events w' =
      events w ++
      (Drawn <$> delivered w (drawn w) (6 * Z.to_nat nqubits)) ++
      [Printed [PStr banner]; Printed [PStr "t = "; PInt 0];
       Printed [PCircuit c]; Simulated c (chain nqubits);
       Printed [PResult c (chain nqubits)]].
Proof.
  destruct (main_run nsteps nqubits w) as (params & c & Hrun & Hc & Hmain).
  exists params, c. eexists. split; [exact Hmain|].
  split_and!; [by apply random_params_concat in Hrun as [? _]
              |by eapply random_params_ParameterMatrix|done..|].
  cbn [events after_draws]. by rewrite <- app_assoc.
Qed.

Lemma range_nonpos (n : Z) : n ≤ 0 → range n = [].
Proof. intros Hn. unfold range. by rewrite Z2Nat.nonpos. Qed.

(** X9.  With no qubit ([nqubits <= 0]) [random_params] draws nothing: it
    returns six empty lists and leaves the world as it was. *)
Theorem random_params_no_qubits (nqubits : Z) (w : World) :
  nqubits ≤ 0 →
  random_params nqubits w = (Ok [[]; []; []; []; []; []], w).
Proof.
  intros Hn. rewrite random_params_run.
  rewrite (Z2Nat.nonpos nqubits Hn). simpl. by rewrite after_draws_0.
Qed.

Lemma random_params_no_qubits_witness :
  random_params (-3) alternating = (Ok [[]; []; []; []; []; []], alternating).
Proof. apply random_params_no_qubits. lia. Defined.

(** X10.  With no qubit [main] still performs its timestep: nothing is
    drawn, and the empty circuit is printed and handed to the simulator with
    an empty qubit order. *)
Theorem main_no_qubits (nsteps nqubits : Z) (w : World) :
  nqubits ≤ 0 →
  main nsteps nqubits w =
  (Ok tt,
   mkWorld (source w) (drawn w)
     (events w ++
      [Printed [PStr banner]; Printed [PStr "t = "; PInt 0];
       Printed [PCircuit []]; Simulated [] []; Printed [PResult [] []]])).
Proof.
  intros Hn.
  destruct (main_run nsteps nqubits w) as (params & c & Hrun & Hc & ->).
  rewrite random_params_run in Hrun. injection Hrun as <-.
  unfold chain in *. rewrite range_nonpos in * by done.
  rewrite (Z2Nat.nonpos nqubits Hn) in Hc.
  change (Ok [] = Ok c) in Hc. injection Hc as <-.
  rewrite (Z2Nat.nonpos nqubits Hn). change (6 * 0)%nat with 0%nat.
  by rewrite after_draws_0, Nat.add_0_r.
Qed.

Lemma main_no_qubits_witness :
  main 5 0 alternating =
  (Ok tt,
   mkWorld (source alternating) (drawn alternating)
     (events alternating ++
      [Printed [PStr banner]; Printed [PStr "t = "; PInt 0];
       Printed [PCircuit []]; Simulated [] []; Printed [PResult [] []]])).
Proof. apply main_no_qubits. lia. Defined.

(** X11.  Two calls of [random_params], one after the other, use [12N]
    consecutive draws of the random source: the second matrix is made of the
    [6N] draws that follow those of the first, so no draw is used twice.
    Drawing is all the calls do: nothing is printed or simulated. *)
Theorem random_params_twice (nqubits : Z) (w : World) :
  ∃ m1 w1 m2 w2,
    random_params nqubits w = (Ok m1, w1) ∧
    random_params nqubits w1 = (Ok m2, w2) ∧
    concat m1 = delivered w (drawn w) (6 * Z.to_nat nqubits) ∧
    concat m2 = delivered w (drawn w + 6 * Z.to_nat nqubits)
                  (6 * Z.to_nat nqubits) ∧
    events w2 =
      events w ++ (Drawn <$> delivered w (drawn w) (12 * Z.to_nat nqubits)).
Proof.
  assert (∃ m1, random_params nqubits w =
            (Ok m1, after_draws w (6 * Z.to_nat nqubits))) as [m1 H1].
  { eexists. apply random_params_run. }
  assert (∃ m2, random_params nqubits (after_draws w (6 * Z.to_nat nqubits)) =
            (Ok m2, after_draws (after_draws w (6 * Z.to_nat nqubits))
                      (6 * Z.to_nat nqubits))) as [m2 H2].
  { eexists. apply random_params_run. }
  eexists m1, _, m2, _. split; [exact H1|]. split; [exact H2|].
  apply random_params_concat in H1 as [-> _].
  apply random_params_concat in H2 as [-> _].
  split; [done|]. split; [done|].
  rewrite after_draws_add. cbn [events after_draws]. do 3 f_equal. lia.
Qed.

(** X12.  The chain of [main]: [nqubits] distinct qubits, the one at position
    [i] being [LineQubit(i)], none for [nqubits <= 0]; its pairs of
    neighbours, the ones [build_circuit] may join by a CNOT, are exactly
    [(LineQubit(i), LineQubit(i+1))] for [0 <= i <= nqubits - 2]. *)
Theorem chain_topology (nqubits : Z) :
  length (chain nqubits) = Z.to_nat nqubits ∧
  NoDup (chain nqubits) ∧
  (∀ (i : nat) q, chain nqubits !! i = Some q ↔
                  q = LineQubit (Z.of_nat i) ∧ Z.of_nat i < nqubits) ∧
  (∀ a b, (a, b) ∈ neighbours (chain nqubits) ↔
          ∃ i, 0 ≤ i ≤ nqubits - 2 ∧ a = LineQubit i ∧ b = LineQubit (i + 1)) ∧
  (nqubits ≤ 0 → chain nqubits = []).
Proof.
  split_and!.
  - apply chain_length.
  - apply chain_NoDup.
  - apply chain_lookup.
  - intros a b. rewrite list_elem_of_lookup. split.
    + intros (i & [[-> _]%chain_lookup [-> Hlt]%chain_lookup]%neighbours_lookup).
      exists (Z.of_nat i). split_and!; [lia|lia|done|f_equal; lia].
    + intros (i & Hi & -> & ->). exists (Z.to_nat i).
      apply neighbours_lookup. split; apply chain_lookup;
        (split; [f_equal; lia|lia]).
  - intros Hn. unfold chain. by rewrite range_nonpos.
Qed.

(* ================================================================== *)
(** * Further properties of build_circuit: composition *)

Lemma gate_if_big_mono {A} (g : A → Operation) (xs : list A)
    (ps ps' : list float) :
  Forall2 (λ p p', ge_half p = true → ge_half p' = true) ps ps' →
  gate_if_big g xs ps `sublist_of` gate_if_big g xs ps'.
Proof.
  intros Hall. revert xs.
  induction Hall as [|p p' ps ps' Hp _ IH]; intros [|x xs];
    rewrite ?gate_if_big_nil_l, ?gate_if_big_nil_r; try done.
  rewrite !gate_if_big_cons.
  destruct (ge_half p).
  - rewrite Hp by done. apply sublist_skip, IH.
  - destruct (ge_half p'); [apply sublist_cons|]; apply IH.
Qed.

Lemma phases_mono (qubits : list Qubit)
    (p0 p1 p2 p3 p4 p5 p0' p1' p2' p3' p4' p5' : list float) :
  Forall2 (Forall2 (λ p p', ge_half p = true → ge_half p' = true))
    [p0; p1; p2; p3; p4; p5] [p0'; p1'; p2'; p3'; p4'; p5'] →
  phases qubits p0 p1 p2 p3 p4 p5
    `sublist_of` phases qubits p0' p1' p2' p3' p4' p5'.
Proof.
  intros Hall.
  repeat match goal with
  | H : Forall2 _ (_ :: _) (_ :: _) |- _ =>
      apply Forall2_cons in H as [? H]
  end.
  unfold phases. repeat apply sublist_app; by apply gate_if_big_mono.
Qed.

(** X13.  Raising entries only adds operations.  Let the qubits be distinct,
    [params'] have the shape of [params], and every entry that is big in
    [params] be big in [params'].  Where [build_circuit] returns a circuit
    for [params] it returns one for [params'].  The operations handed to the
    first circuit are a subsequence of those handed to the second, so every
    operation of the first circuit is in the second, and on every qubit the
    operations of the first are a subsequence of those of the second: no
    operation is lost, and on no qubit do two operations change order. *)
Theorem more_big_entries_more_operations (qubits : list Qubit)
    (params params' : list (list float)) (c : Circuit) :
  NoDup qubits →
  Forall2 (Forall2 (λ p p', ge_half p = true → ge_half p' = true))
    params params' →
  build_circuit qubits params = Ok c →
  ∃ c', build_circuit qubits params' = Ok c' ∧
        (∃ ops ops', c = cirq.append cirq.Circuit_new ops ∧
                     c' = cirq.append cirq.Circuit_new ops' ∧
                     ops `sublist_of` ops') ∧
        cirq.all_operations c ⊆+ cirq.all_operations c' ∧
        (∀ q, on_qubit q (cirq.all_operations c)
              `sublist_of` on_qubit q (cirq.all_operations c')).
Proof.
  intros Hnd Hall (p0 & p1 & p2 & p3 & p4 & p5 & more & -> & Hle & _ & ->)
    %build_circuit_Ok_inv.
  apply Forall2_cons_inv_l in Hall as (p0' & m0 & H0 & Hall & ->).
  apply Forall2_cons_inv_l in Hall as (p1' & m1 & H1 & Hall & ->).
  apply Forall2_cons_inv_l in Hall as (p2' & m2 & H2 & Hall & ->).
  apply Forall2_cons_inv_l in Hall as (p3' & m3 & H3 & Hall & ->).
  apply Forall2_cons_inv_l in Hall as (p4' & m4 & H4 & Hall & ->).
  apply Forall2_cons_inv_l in Hall as (p5' & m5 & H5 & Hall & ->).
  assert (phases qubits p0 p1 p2 p3 p4 p5
            `sublist_of` phases qubits p0' p1' p2' p3' p4' p5') as Hsub.
  { apply phases_mono. by repeat constructor. }
  eexists. split.
  { apply build_circuit_six; [|by apply NoDup_self_CNOT].
    by rewrite <- (Forall2_length _ _ _ H1). }
  split_and!.
  - by eexists _, _.
  - rewrite !new_circuit_ops. by apply sublist_submseteq.
  - intros q. rewrite !new_circuit_on_qubit. by apply on_qubit_mono.
Qed.

Lemma more_big_entries_more_operations_witness :
  let c := [[cirq.reset (LineQubit 0); cirq.measure (LineQubit 1)];
            [cirq.H (LineQubit 0)];
            [cirq.measure (LineQubit 0)]] in
  ∃ c', build_circuit (chain 2)
          [[1; 1]; [1; 0]; [1; 0.75]; [0; 0]; [0.5; 0]; [1; 1]]%float = Ok c' ∧
        (∃ ops ops', c = cirq.append cirq.Circuit_new ops ∧
                     c' = cirq.append cirq.Circuit_new ops' ∧
                     ops `sublist_of` ops') ∧
        cirq.all_operations c ⊆+ cirq.all_operations c' ∧
        (∀ q, on_qubit q (cirq.all_operations c)
              `sublist_of` on_qubit q (cirq.all_operations c')).
Proof.
  apply (more_big_entries_more_operations (chain 2)
           [[1; 0]; [0; 0]; [1; 0.25]; [0; 0]; [0; 0]; [1; 1]]%float).
  - apply chain_NoDup.
  - repeat constructor; done.
  - reflexivity.
Defined.

(* ================================================================== *)
(** * Further properties of build_circuit on the store *)

(** X14.  Every call makes a circuit of its own.  Two calls on the same
    arguments, one after the other, return references to two different
    objects, neither of them an argument; the second call leaves the circuit
    of the first as it was, and both hold the same operations. *)
Theorem circuit_new_each_call (σ : Store) (qubits params : positive)
    (qs : list Qubit) (ps : list (list float)) (c : Circuit) :
  qubits_at σ qubits qs → matrix_at σ params ps →
  build_circuit qs ps = Ok c →
  ∃ l1 σ1 l2 σ2,
    ByRef.build_circuit qubits params σ = (Ok l1, σ1) ∧
    ByRef.build_circuit qubits params σ1 = (Ok l2, σ2) ∧
    l1 ≠ l2 ∧ l1 ≠ qubits ∧ l1 ≠ params ∧ l2 ≠ qubits ∧ l2 ≠ params ∧
    σ1 !! l1 = Some (ACircuit c) ∧
    σ2 !! l1 = Some (ACircuit c) ∧
    σ2 !! l2 = Some (ACircuit c).
Proof.
  intros Hqs Hps Hc.
  destruct (build_circuit_store σ qubits params qs ps Hqs Hps)
    as (r1 & σ1 & Hrun1 & Hsub1 & Hr1).
  rewrite Hc in Hr1. destruct Hr1 as (l1 & -> & Hnew1 & Hl1).
  pose proof (qubits_at_mono _ _ _ _ Hsub1 Hqs) as Hqs1.
  pose proof (matrix_at_mono _ _ _ _ Hsub1 Hps) as Hps1.
  destruct (build_circuit_store σ1 qubits params qs ps Hqs1 Hps1)
    as (r2 & σ2 & Hrun2 & Hsub2 & Hr2).
  rewrite Hc in Hr2. destruct Hr2 as (l2 & -> & Hnew2 & Hl2).
  destruct Hps as (ls & Hparams & _). destruct Hps1 as (ls1 & Hparams1 & _).
  exists l1, σ1, l2, σ2. split_and!; try done; try congruence.
  by apply (lookup_weaken σ1).
Qed.

Lemma circuit_new_each_call_witness :
  ∃ l1 σ1 l2 σ2,
    ByRef.build_circuit 1 2 shared_lists = (Ok l1, σ1) ∧
    ByRef.build_circuit 1 2 σ1 = (Ok l2, σ2) ∧
    l1 ≠ l2 ∧ l1 ≠ 1%positive ∧ l1 ≠ 2%positive ∧
    l2 ≠ 1%positive ∧ l2 ≠ 2%positive ∧
    σ1 !! l1 = Some (ACircuit
      [[cirq.reset (LineQubit 0)]; [cirq.CNOT (LineQubit 0) (LineQubit 1)];
       [cirq.H (LineQubit 0); cirq.T (LineQubit 1)]; [cirq.S (LineQubit 0)];
       [cirq.T (LineQubit 0)]; [cirq.measure (LineQubit 0)]]) ∧
    σ2 !! l1 = Some (ACircuit
      [[cirq.reset (LineQubit 0)]; [cirq.CNOT (LineQubit 0) (LineQubit 1)];
       [cirq.H (LineQubit 0); cirq.T (LineQubit 1)]; [cirq.S (LineQubit 0)];
       [cirq.T (LineQubit 0)]; [cirq.measure (LineQubit 0)]]) ∧
    σ2 !! l2 = Some (ACircuit
      [[cirq.reset (LineQubit 0)]; [cirq.CNOT (LineQubit 0) (LineQubit 1)];
       [cirq.H (LineQubit 0); cirq.T (LineQubit 1)]; [cirq.S (LineQubit 0)];
       [cirq.T (LineQubit 0)]; [cirq.measure (LineQubit 0)]]).
Proof.
  apply (circuit_new_each_call shared_lists 1 2 (chain 2)
           [[1; 0.25]; [0.5; 1]; [1; 0.25]; [1; 0.25]; [0.5; 1]; [1; 0.25]]%float).
  - reflexivity.
  - exists [3; 4; 3; 3; 4; 3]%positive. split; [reflexivity|].
    repeat constructor.
  - reflexivity.
Defined.
